(** * grepc: occurrence tracking for user-defined highlight rules

    A shallow embedding of the TypeScript sources

    - [ext-src/rules/rule.ts]                (the [Rule] record),
    - the rule factory                       ([RuleFactory]),
    - the decoration type wrapper            ([DecorationTypeWrapper]),
    - [ext-src/decorationTypeManager.ts]     ([DecorationTypeManager]),

    together with the parts of the host platform they call: the editor's
    [Position], [Range] and [TextDocument] values, JavaScript's
    [Array.prototype.splice] and the [RegExp] object with its [lastIndex]
    cursor.  Mutable objects become explicit state, [throw] becomes a result
    of its own, and every [while] loop is driven by a fuel counter so that
    non-termination is a result one can state and prove. *)

From Stdlib Require Import ZArith Ascii String List Bool Lia.
From stdpp Require Import base option list strings gmap.

Local Open Scope string_scope.
Local Open Scope list_scope.
Local Open Scope Z_scope.

(** ** Results of effectful code *)

Module Js.

(** What a JavaScript exception carries, as far as the sources are concerned. *)
Inductive Exn :=
| SyntaxError (pattern : string)
| TypeError
| Error (message : string).

(** A computation returns, throws, or is cut off because the fuel given to its
    loops ran out.  A thrown exception carries no state: where the sources
    catch one, the handler is given the state as it was at the [throw]. *)
Inductive Res (A : Type) :=
| Ret (a : A)
| Throw (e : Exn)
| OutOfFuel.

Arguments Ret {A} a.
Arguments Throw {A} e.
Arguments OutOfFuel {A}.

Definition bind {A B} (m : Res A) (k : A -> Res B) : Res B :=
  match m with
  | Ret a => k a
  | Throw e => Throw e
  | OutOfFuel => OutOfFuel
  end.

(** [try { body } catch { handler }] : only a thrown exception reaches the
    handler. *)
Definition try_catch {A} (body : Res A) (handler : Exn -> Res A) : Res A :=
  match body with
  | Throw e => handler e
  | r => r
  end.

Definition returns {A} (m : Res A) : bool :=
  match m with Ret _ => true | _ => false end.

Definition throws {A} (m : Res A) : bool :=
  match m with Throw _ => true | _ => false end.

(** [a || b] on strings: the empty string is falsy. *)
Definition or_else (a b : string) : string :=
  if String.eqb a "" then b else a.

(** [Array.prototype.splice(start, deleteCount, ...items)] for a start that is
    not negative: a start beyond the end is the end, and no more elements are
    deleted than there are. *)
Definition splice {A} (start deleteCount : nat) (items : list A) (l : list A)
  : list A :=
  let s := Nat.min start (length l) in
  take s l ++ items ++ drop (s + deleteCount) l.

End Js.

Export Js.

#[global] Instance Res_ret : MRet Res := @Ret.
#[global] Instance Res_bind : MBind Res := fun A B k m => bind m k.

(** ** Editor values: positions and ranges *)

Module Position.

Record t := mk { line : nat; character : nat }.

Definition eqb (p q : t) : bool :=
  Nat.eqb (line p) (line q) && Nat.eqb (character p) (character q).

Definition isBefore (p q : t) : bool :=
  Nat.ltb (line p) (line q)
  || (Nat.eqb (line p) (line q) && Nat.ltb (character p) (character q)).

Definition isBeforeOrEqual (p q : t) : bool :=
  Nat.ltb (line p) (line q)
  || (Nat.eqb (line p) (line q) && Nat.leb (character p) (character q)).

Definition isAfter (p q : t) : bool := negb (isBeforeOrEqual p q).

Definition isAfterOrEqual (p q : t) : bool := negb (isBefore p q).

Definition Min (p q : t) : t := if isBefore q p then q else p.

Definition Max (p q : t) : t := if isAfter q p then q else p.

(** [p.translate(lineDelta, characterDelta)]; the sources only call it where
    the result stays non-negative. *)
Definition translate (p : t) (lineDelta characterDelta : Z) : t :=
  mk (Z.to_nat (Z.of_nat (line p) + lineDelta))
     (Z.to_nat (Z.of_nat (character p) + characterDelta)).

(** [p.with(line, character)]. *)
Definition with_ (p : t) (l c : nat) : t := mk l c.

End Position.

Module Range.

Record t := mk { start : Position.t; end_ : Position.t }.

(** [new Range(a, b)]: the earlier position becomes the start. *)
Definition new (a b : Position.t) : t :=
  if Position.isBefore b a then mk b a else mk a b.

Definition eqb (r s : t) : bool :=
  Position.eqb (start r) (start s) && Position.eqb (end_ r) (end_ s).

Definition containsPosition (r : t) (p : Position.t) : bool :=
  negb (Position.isBefore p (start r) || Position.isBefore (end_ r) p).

Definition contains (r o : t) : bool :=
  containsPosition r (start o) && containsPosition r (end_ o).

(** [r.intersection(o)]: undefined only when one range lies strictly before the
    other; ranges that merely touch intersect in an empty range. *)
Definition intersection (r o : t) : option t :=
  let s := Position.Max (start o) (start r) in
  let e := Position.Min (end_ o) (end_ r) in
  if Position.isAfter s e then None else Some (new s e).

Definition union (r o : t) : t :=
  if contains r o then r
  else if contains o r then o
  else new (Position.Min (start o) (start r)) (Position.Max (end_ o) (end_ r)).

End Range.

(** ** Text documents *)

Module TextDocument.

Definition LF : ascii := "010"%char.

Definition is_LF (c : ascii) : bool := Ascii.eqb c LF.

(** A document: its file name and its text, lines separated by a line feed. *)
Record t := mk { fileName : string; text : list ascii }.

Definition getText (d : t) : list ascii := text d.

(** [positionAt(offset)]: an offset beyond the text is the end of the text. *)
Fixpoint positionAt_from (s : list ascii) (offset l c : nat) : Position.t :=
  match offset, s with
  | O, _ => Position.mk l c
  | S _, [] => Position.mk l c
  | S k, ch :: s' =>
      if is_LF ch then positionAt_from s' k (S l) O
      else positionAt_from s' k l (S c)
  end.

Definition positionAt (d : t) (offset : nat) : Position.t :=
  positionAt_from (text d) offset O O.

(** [offsetAt(position)]: the position is validated first, a line beyond the
    last one is the end of the text and a character beyond the line's end is
    the line's end. *)
Fixpoint offsetAt_from (s : list ascii) (l c acc : nat) : nat :=
  match s with
  | [] => acc
  | ch :: s' =>
      match l with
      | S l' =>
          if is_LF ch then offsetAt_from s' l' c (S acc)
          else offsetAt_from s' l c (S acc)
      | O =>
          match c with
          | O => acc
          | S c' => if is_LF ch then acc else offsetAt_from s' O c' (S acc)
          end
      end
  end.

Definition offsetAt (d : t) (p : Position.t) : nat :=
  offsetAt_from (text d) (Position.line p) (Position.character p) O.

Definition substring (s : list ascii) (from to : nat) : list ascii :=
  take (to - from)%nat (drop from s).

(** [getText(range)]: the text between the validated ends of the range. *)
Definition getTextIn (d : t) (r : Range.t) : list ascii :=
  substring (text d) (offsetAt d (Range.start r)) (offsetAt d (Range.end_ r)).

(** The lines of a text, without their line feeds. *)
Fixpoint lines_from (s : list ascii) (cur : list ascii) : list (list ascii) :=
  match s with
  | [] => [rev cur]
  | ch :: s' =>
      if is_LF ch then rev cur :: lines_from s' []
      else lines_from s' (ch :: cur)
  end.

Definition lines (d : t) : list (list ascii) := lines_from (text d) [].

Definition lineCount (d : t) : nat := length (lines d).

(** [lineAt(n).text]; the editor throws for a line that does not exist. *)
Definition lineAt (d : t) (n : nat) : Res (list ascii) :=
  match lines d !! n with
  | Some l => Ret l
  | None => Throw (Error "Illegal value for `line`")
  end.

End TextDocument.

Definition chars (s : string) : list ascii := list_ascii_of_string s.

(** ** Regular expressions

    The platform's [RegExp] is not part of the sources.  A compiled expression
    is its two cursor flags and its matcher: [matcher s i] is the length of
    the match of the pattern in [s] that starts exactly at index [i], if there
    is one.  [exec] is the platform's algorithm around the matcher, written out
    with the [lastIndex] cursor as explicit state. *)

Module RegExp.

Record Match := mkMatch { index : nat; matched : nat }.

Record t := mk {
  global : bool;
  sticky : bool;
  matcher : list ascii -> nat -> option nat
}.

Definition usesLastIndex (re : t) : bool := global re || sticky re.

(** The leftmost index from [i] on, among [n] candidates, at which the matcher
    succeeds; a sticky expression only tries the first. *)
Fixpoint firstMatch (re : t) (s : list ascii) (n i : nat) : option Match :=
  match n with
  | O => None
  | S n' =>
      match matcher re s i with
      | Some len => Some (mkMatch i len)
      | None => if sticky re then None else firstMatch re s n' (S i)
      end
  end.

(** [re.exec(s)] with the cursor at [lastIndex]: the match, if any, and the
    cursor afterwards.  Without the global or sticky flag the search starts at
    0 and the cursor is left alone; with one of them the cursor moves to the
    end of the match, which for an empty match is where it already was. *)
Definition exec (re : t) (lastIndex : nat) (s : list ascii)
  : option Match * nat :=
  let from := if usesLastIndex re then lastIndex else O in
  match firstMatch re s (S (length s) - from)%nat from with
  | Some m =>
      (Some m, if usesLastIndex re then (index m + matched m)%nat else lastIndex)
  | None => (None, if usesLastIndex re then O else lastIndex)
  end.

(** [re.test(s)] on a fresh expression. *)
Definition test (re : t) (s : list ascii) : bool :=
  match fst (exec re O s) with Some _ => true | None => false end.

End RegExp.

(** The constructor [new RegExp(pattern, flags)]: [None] stands for the
    [SyntaxError] it throws on a pattern or flags it cannot compile. *)
Class Engine := { compile : string -> string -> option RegExp.t }.

Definition new_RegExp `{Engine} (pattern flags : string) : Res RegExp.t :=
  match compile pattern flags with
  | Some re => Ret re
  | None => Throw (SyntaxError pattern)
  end.

(** An engine for patterns that are plain text.  It accepts a pattern without
    metacharacters, which matches itself (the empty pattern matches the empty
    text everywhere), under any set of distinct flags among [dgimsuvy] that
    does not hold both [u] and [v]; every other pattern, such as the
    unbalanced ["("], is refused.  It gives the model concrete inputs to run
    on. *)
Module Literal.

Definition metacharacters : list ascii := chars "\^$.|?*+()[]{}".

Definition isMeta (c : ascii) : bool := existsb (Ascii.eqb c) metacharacters.

Definition flagLetters : list ascii := chars "dgimsuvy".

Definition hasFlag (c : ascii) (f : list ascii) : bool := existsb (Ascii.eqb c) f.

Fixpoint distinctFlags (f : list ascii) : bool :=
  match f with
  | [] => true
  | c :: f' =>
      existsb (Ascii.eqb c) flagLetters && negb (hasFlag c f')
      && distinctFlags f'
  end.

Definition validFlags (f : list ascii) : bool :=
  distinctFlags f && negb (hasFlag "u" f && hasFlag "v" f).

(** Case folding for the letters A to Z. *)
Definition lower (c : ascii) : ascii :=
  let n := nat_of_ascii c in
  if Nat.leb 65 n && Nat.leb n 90 then ascii_of_nat (n + 32) else c.

Fixpoint isPrefix (ignoreCase : bool) (p s : list ascii) : bool :=
  match p, s with
  | [], _ => true
  | _ :: _, [] => false
  | a :: p', b :: s' =>
      (if ignoreCase then Ascii.eqb (lower a) (lower b) else Ascii.eqb a b)
      && isPrefix ignoreCase p' s'
  end.

Definition matchAt (ignoreCase : bool) (p s : list ascii) (i : nat)
  : option nat :=
  if isPrefix ignoreCase p (drop i s) then Some (length p) else None.

Definition compile (pattern flags : string) : option RegExp.t :=
  let p := chars pattern in
  let f := chars flags in
  if validFlags f && negb (existsb isMeta p) then
    Some (RegExp.mk (hasFlag "g" f) (hasFlag "y" f)
            (matchAt (hasFlag "i" f) p))
  else None.

#[global] Instance engine : Engine := Build_Engine compile.

End Literal.

(** ** Rules *)

(** One occurrence as it is sent to the view: the lines it spans, their text,
    and its offsets relative to the start of its first line. *)
Record LineRange := mkLineRange {
  lr_ruleId : string;
  lr_index : Z;
  lr_lines : list (list ascii);
  lr_lineNumbers : list nat;
  lr_startIndex : Z;
  lr_endIndexExcl : Z;
  lr_selectionNumber : nat
}.

(** The [Rule] interface of [rule.ts], with the two fields the other sources
    read and write besides ([regularExpressionFlags], [lineRanges]).  A
    [number | null] is an [option Z].  The record stands for a rule object on
    which every one of these keys is set, as the stored rules are; an object
    that lacks a key, such as one fresh from the constructor, which assigns
    neither of the two extra fields, is not among its values. *)
Record Rule := mkRule {
  enabled : bool;
  expanded : bool;
  decorationExpanded : bool;
  id : string;
  title : string;
  overviewRulerLane : Z;
  overviewRulerColor : string;
  occurrences : option Z;
  maxOccurrences : option Z;
  regularExpression : string;
  regularExpressionFlags : string;
  includedFiles : string;
  excludedFiles : string;
  backgroundColor : string;
  outline : string;
  outlineColor : string;
  outlineWidth : string;
  border : string;
  borderColor : string;
  borderWidth : string;
  fontStyle : string;
  fontWeight : string;
  textDecoration : string;
  cursor : string;
  color : string;
  isWholeLine : bool;
  lineRanges : list LineRange
}.

(** [rule.lineRanges = ranges; rule.occurrences = occurrences]. *)
Definition withReport (rule : Rule) (ranges : list LineRange) (occurrences : Z)
  : Rule :=
  mkRule (enabled rule) (expanded rule) (decorationExpanded rule) (id rule)
    (title rule) (overviewRulerLane rule) (overviewRulerColor rule)
    (Some occurrences) (maxOccurrences rule) (regularExpression rule)
    (regularExpressionFlags rule) (includedFiles rule) (excludedFiles rule)
    (backgroundColor rule) (outline rule) (outlineColor rule)
    (outlineWidth rule) (border rule) (borderColor rule) (borderWidth rule)
    (fontStyle rule) (fontWeight rule) (textDecoration rule) (cursor rule)
    (color rule) (isWholeLine rule) ranges.

(** [rule.enabled = value]. *)
Definition withEnabled (value : bool) (rule : Rule) : Rule :=
  mkRule value (expanded rule) (decorationExpanded rule) (id rule)
    (title rule) (overviewRulerLane rule) (overviewRulerColor rule)
    (occurrences rule) (maxOccurrences rule) (regularExpression rule)
    (regularExpressionFlags rule) (includedFiles rule) (excludedFiles rule)
    (backgroundColor rule) (outline rule) (outlineColor rule)
    (outlineWidth rule) (border rule) (borderColor rule) (borderWidth rule)
    (fontStyle rule) (fontWeight rule) (textDecoration rule) (cursor rule)
    (color rule) (isWholeLine rule) (lineRanges rule).

(** [rule.maxOccurrences ?? 1000]. *)
Definition cap (rule : Rule) : Z := default 1000 (maxOccurrences rule).

(** One decoration handed to the editor: its range and the hover text
    [`Rule: ${title}\n #${occurrence}`], kept as its two parts. *)
Record DecorationOptions := mkDecoration {
  range : Range.t;
  hoverTitle : string;
  hoverOccurrence : nat
}.

(** ** The scan loop

    The three scans of the sources share the shape
    [while ((match = regEx.exec(text)) && guard) { ...push... }]: [exec] runs
    first, then the guard is read, then one match is appended.  [guard] gets
    the number of matches appended so far. *)
Fixpoint execLoop (fuel : nat) (re : RegExp.t) (s : list ascii)
  (guard : nat -> bool) (lastIndex : nat) (found : list RegExp.Match)
  : Res (list RegExp.Match) :=
  match fuel with
  | O => OutOfFuel
  | S fuel' =>
      match RegExp.exec re lastIndex s with
      | (Some m, lastIndex') =>
          if guard (length found)
          then execLoop fuel' re s guard lastIndex' (found ++ [m])
          else Ret found
      | (None, _) => Ret found
      end
  end.

(** [arr[i]] for a numeric index: undefined below zero and beyond the end. *)
Definition at_ {A} (l : list A) (i : Z) : option A :=
  if i <? 0 then None else l !! Z.to_nat i.

(** The range of a match found in a text that starts at [offset] in the
    document. *)
Definition rangeOfMatch (d : TextDocument.t) (offset : nat) (m : RegExp.Match)
  : Range.t :=
  Range.new
    (TextDocument.positionAt d (offset + RegExp.index m))
    (TextDocument.positionAt d (offset + RegExp.index m + RegExp.matched m)).

(** ** The decoration type wrapper: one rule's store for one document *)

Module IntersectingRangeData.

Record t := mk {
  removed : Z;
  range : option Range.t;
  insertIndex : Z
}.

End IntersectingRangeData.

(** One entry of a text change event: the range that was replaced, in the
    coordinates of the text before the change, and the text put there. *)
Record ContentChange := mkChange {
  cc_range : Range.t;
  cc_text : list ascii
}.

Module DecorationTypeWrapper.

Import IntersectingRangeData.

Record t := mk {
  document : TextDocument.t;
  rule : Rule;
  decorationOptions : list DecorationOptions;
  activeOccurrences : list Range.t
}.

Definition new (document : TextDocument.t) (rule : Rule) : t :=
  mk document rule [] [].

(** The document object is live: after an edit the wrapper reads the new text
    through the same reference. *)
Definition withDocument (w : t) (d : TextDocument.t) : t :=
  mk d (rule w) (decorationOptions w) (activeOccurrences w).

Definition hasDecorationChanged (w : t) (current : Rule) : bool :=
  negb (String.eqb (id (rule w)) (id current))
  || negb (String.eqb (backgroundColor (rule w)) (backgroundColor current))
  || negb (String.eqb (border (rule w)) (border current))
  || negb (String.eqb (borderColor (rule w)) (borderColor current))
  || negb (String.eqb (borderWidth (rule w)) (borderWidth current))
  || negb (String.eqb (color (rule w)) (color current))
  || negb (String.eqb (cursor (rule w)) (cursor current))
  || negb (String.eqb (fontStyle (rule w)) (fontStyle current))
  || negb (String.eqb (fontWeight (rule w)) (fontWeight current))
  || negb (Bool.eqb (isWholeLine (rule w)) (isWholeLine current))
  || negb (bool_decide (maxOccurrences (rule w) = maxOccurrences current))
  || negb (String.eqb (outline (rule w)) (outline current))
  || negb (String.eqb (outlineColor (rule w)) (outlineColor current))
  || negb (String.eqb (outlineWidth (rule w)) (outlineWidth current))
  || negb (String.eqb (overviewRulerColor (rule w)) (overviewRulerColor current))
  || negb (Z.eqb (overviewRulerLane (rule w)) (overviewRulerLane current))
  || negb (String.eqb (textDecoration (rule w)) (textDecoration current)).

Definition needsOnlyOccurrenceUpdate (w : t) (current : Rule) : bool :=
  (negb (String.eqb (regularExpression (rule w)) (regularExpression current))
   || negb (String.eqb (regularExpressionFlags (rule w))
              (regularExpressionFlags current))
   || negb (String.eqb (includedFiles (rule w)) (includedFiles current))
   || negb (String.eqb (excludedFiles (rule w)) (excludedFiles current))
   || negb (String.eqb (title (rule w)) (title current)))
  && negb (hasDecorationChanged w current).

(** From the first column of the range's first line to the first column of
    the line after its last line. *)
Definition getFullLineRange (r : Range.t) : Range.t :=
  let newStart :=
    Position.with_ (Range.start r) (Position.line (Range.start r)) 0 in
  let newEnd :=
    Position.with_ (Range.end_ r) (Position.line (Range.end_ r) + 1) 0 in
  Range.new newStart newEnd.

(** "shift range -1 and +1 on either end to match with neighboring
    occurrences": the start moves one character back unless it is at the first
    column, the end moves one character on. *)
Definition paddedRange (contentChangeRange : Range.t) : Range.t :=
  let newStart :=
    if Nat.ltb 0 (Position.character (Range.start contentChangeRange))
    then Position.translate (Range.start contentChangeRange) 0 (-1)
    else Range.start contentChangeRange in
  let newEnd := Position.translate (Range.end_ contentChangeRange) 0 1 in
  Range.new newStart newEnd.

(** The walk to the left of the probed index: [k] is [left + 1], and [i]
    below is [left]. *)
Fixpoint goLeft (contentChangeRange : Range.t) (occ : list Range.t) (k : nat)
  (intersection : Range.t) : Res (Z * Range.t) :=
  match k with
  | O => Ret (-1, intersection)
  | S i =>
      match occ !! i with
      | None => Throw TypeError
      | Some o =>
          match Range.intersection contentChangeRange o with
          | Some newIntersection =>
              goLeft contentChangeRange occ i
                (Range.union newIntersection intersection)
          | None => Ret (Z.of_nat i, intersection)
          end
      end
  end.

(** The walk to the right: [rest] holds the occurrences from index [right]
    on. *)
Fixpoint goRight (contentChangeRange : Range.t) (rest : list Range.t)
  (right : Z) (intersection : Range.t) : Z * Range.t :=
  match rest with
  | [] => (right, intersection)
  | o :: rest' =>
      match Range.intersection contentChangeRange o with
      | Some newIntersection =>
          goRight contentChangeRange rest' (right + 1)
            (Range.union newIntersection intersection)
      | None => (right, intersection)
      end
  end.

(** The binary search of [removeIntersectingOccurrences], one probe per unit
    of fuel. *)
Fixpoint search (fuel : nat) (contentChangeRange : Range.t) (w : t)
  (left right : Z) : Res (IntersectingRangeData.t * t) :=
  match fuel with
  | O => OutOfFuel
  | S fuel' =>
      if left <=? right then
        let middle := (left + right) / 2 in
        match at_ (activeOccurrences w) middle with
        | None => Ret (IntersectingRangeData.mk 0 None (left + 1), w)
        | Some midRange =>
            match Range.intersection midRange contentChangeRange with
            | Some _ =>
                let intersection := Range.union contentChangeRange midRange in
                '(left', intersection) ←
                  goLeft contentChangeRange (activeOccurrences w)
                    (Z.to_nat middle) intersection;
                let '(right', intersection) :=
                  goRight contentChangeRange
                    (drop (Z.to_nat (middle + 1)) (activeOccurrences w))
                    (middle + 1) intersection in
                let from := Z.to_nat (left' + 1) in
                let count := Z.to_nat (right' - (left' + 1)) in
                Ret (IntersectingRangeData.mk
                       (right' - (left' + 1)) (Some intersection) (left' + 1),
                     mk (document w) (rule w)
                       (splice from count [] (decorationOptions w))
                       (splice from count [] (activeOccurrences w)))
            | None =>
                if Position.isBeforeOrEqual (Range.start midRange)
                     (Range.start contentChangeRange)
                then search fuel' contentChangeRange w (middle + 1) right
                else search fuel' contentChangeRange w left (middle - 1)
            end
        end
      else Ret (IntersectingRangeData.mk 0 None (left + 1), w)
  end.

Definition removeIntersectingOccurrences (fuel : nat)
  (contentChangeRange : Range.t) (w : t)
  : Res (IntersectingRangeData.t * t) :=
  search fuel (paddedRange contentChangeRange) w
    0 (Z.of_nat (length (activeOccurrences w)) - 1).

(** [items.forEach((x, i) => arr.splice(insertIndex + i, 0, x))]. *)
Fixpoint insertEach {A} (insertIndex i : nat) (items : list A) (arr : list A)
  : list A :=
  match items with
  | [] => arr
  | x :: items' =>
      insertEach insertIndex (S i) items' (splice (insertIndex + i) 0 [x] arr)
  end.

Definition generateOccurrencesOnChange `{Engine} (fuel : nat)
  (contentChange : ContentChange) (w : t) : Res t :=
  '(intersectingRangeData, w) ←
    removeIntersectingOccurrences fuel
      (getFullLineRange (cc_range contentChange)) w;
  if (0 <? removed intersectingRangeData)
     && negb (bool_decide (is_Some (range intersectingRangeData)))
  then Throw
         (Error "Intersecting Range Data should contain a range if removed > 0.")
  else
    let textRange :=
      getFullLineRange
        (default (cc_range contentChange) (range intersectingRangeData)) in
    let text := TextDocument.getTextIn (document w) textRange in
    regEx ← new_RegExp (regularExpression (rule w))
               (or_else (regularExpressionFlags (rule w)) "g");
    let insertIndex := Z.to_nat (insertIndex intersectingRangeData) in
    let offset := TextDocument.offsetAt (document w) (Range.start textRange) in
    found ← execLoop fuel regEx text
               (fun _ => Z.of_nat (length (decorationOptions w)) <? cap (rule w))
               0 [];
    let newOccurrences := map (rangeOfMatch (document w) offset) found in
    let newDecorations :=
      imap (fun i r => mkDecoration r (title (rule w)) (insertIndex + 2 + i))
        newOccurrences in
    Ret (mk (document w) (rule w)
           (insertEach insertIndex 0 newDecorations (decorationOptions w))
           (insertEach insertIndex 0 newOccurrences (activeOccurrences w))).

(** [applyDecorationsToEditor]: the decorations handed to the editor, or the
    error thrown for an editor that shows another document. *)
Definition applyDecorationsToEditor (activeEditor : TextDocument.t) (w : t)
  : Res (list DecorationOptions) :=
  if negb (String.eqb (TextDocument.fileName activeEditor)
             (TextDocument.fileName (document w)))
  then Throw (Error "CANNOT APPLY DECORATIONS TO DIFFERENT DOCUMENT")
  else Ret (decorationOptions w).

Definition updateOccurrences `{Engine} (fuel : nat) (document : TextDocument.t)
  (newRule : option Rule) (w : t) : Res t :=
  let rule := default (rule w) newRule in
  regEx ← new_RegExp (regularExpression rule)
             (or_else (regularExpressionFlags rule) "g");
  found ← execLoop fuel regEx (TextDocument.getText document)
             (fun n => Z.of_nat n <? cap rule) 0 [];
  let ranges := map (rangeOfMatch document 0) found in
  let decorations :=
    imap (fun i r => mkDecoration r (title rule) (S i)) ranges in
  Ret (mk (DecorationTypeWrapper.document w) rule decorations ranges).

Definition clearOccurrenceData (w : t) : t :=
  mk (document w) (rule w) [] [].

End DecorationTypeWrapper.

(** The editor applies a change to a document: the text between the ends of
    the replaced range gives way to the new text. *)
Definition applyChange (d : TextDocument.t) (c : ContentChange)
  : TextDocument.t :=
  TextDocument.mk (TextDocument.fileName d)
    (take (TextDocument.offsetAt d (Range.start (cc_range c))) (TextDocument.text d)
     ++ cc_text c
     ++ drop (TextDocument.offsetAt d (Range.end_ (cc_range c)))
          (TextDocument.text d)).

(** ** The rule factory: stored rules and what is reported about them

    The storage behind the factory holds the rules twice, as a map by
    identifier and as an ordered array.  The [LocationState] enumeration is
    declared outside the files at hand and stays a parameter.  Of the logger
    only the error channel is kept. *)

(** The message posted to the view by [pushOccurrences]. *)
Record Message := mkMessage {
  msg_id : string;
  msg_ranges : list LineRange;
  msg_occurrences : Z
}.

Module RuleFactory.

Section WithLocation.

Context {LocationState : Type}.

Record t := mk {
  location : LocationState;
  locked : bool;
  rulesMap : gmap string Rule;
  rulesArray : list Rule;
  (** [_grepcProvider]: absent, or present with or without a web view. *)
  grepcProvider : option bool;
  (** The values sent on [$enabledRules], oldest first. *)
  enabledRulesCast : list (list Rule);
  (** The messages posted to the web view, oldest first. *)
  posted : list Message;
  (** How often [pushRules] was called on the provider. *)
  pushedRules : nat;
  (** The lines written to the error log, oldest first. *)
  errors : list string
}.

Definition getRulesMap (f : t) : gmap string Rule := rulesMap f.
Definition getRulesArray (f : t) : list Rule := rulesArray f.
Definition getRule (f : t) (i : string) : option Rule := getRulesMap f !! i.

Definition rulesCount (f : t) : nat := length (getRulesArray f).
Definition enabledRulesCount (f : t) : nat :=
  length (filter (fun r => enabled r = true) (getRulesArray f)).

Definition setRulesMap (m : gmap string Rule) (f : t) : t :=
  mk (location f) (locked f) m (rulesArray f) (grepcProvider f)
    (enabledRulesCast f) (posted f) (pushedRules f) (errors f).

Definition setRulesArray (a : list Rule) (f : t) : t :=
  mk (location f) (locked f) (rulesMap f) a (grepcProvider f)
    (enabledRulesCast f) (posted f) (pushedRules f) (errors f).

Definition logError (line : string) (f : t) : t :=
  mk (location f) (locked f) (rulesMap f) (rulesArray f) (grepcProvider f)
    (enabledRulesCast f) (posted f) (pushedRules f) (errors f ++ [line]).

Definition recastEnabledRules (f : t) : t :=
  mk (location f) (locked f) (rulesMap f) (rulesArray f) (grepcProvider f)
    (enabledRulesCast f
       ++ [filter (fun r => enabled r = true) (getRulesArray f)])
    (posted f) (pushedRules f) (errors f).

Definition pushRules (f : t) : t :=
  match grepcProvider f with
  | Some _ =>
      mk (location f) (locked f) (rulesMap f) (rulesArray f) (grepcProvider f)
        (enabledRulesCast f) (posted f) (S (pushedRules f)) (errors f)
  | None => f
  end.

Definition postMessage (msg : Message) (f : t) : t :=
  match grepcProvider f with
  | Some true =>
      mk (location f) (locked f) (rulesMap f) (rulesArray f) (grepcProvider f)
        (enabledRulesCast f) (posted f ++ [msg]) (pushedRules f) (errors f)
  | _ => f
  end.

(** The size check shared by [updateRules] and [updateRulesLocally]: a
    mismatch is written to the error log and nothing else. *)
Definition checkSizes (m : gmap string Rule) (a : list Rule) (f : t) : t :=
  if negb (Nat.eqb (size m) (length a))
  then logError "rulesMap does not match rulesArray" f
  else f.

Definition updateRulesLocally (m : gmap string Rule) (a : list Rule) (f : t)
  : t :=
  recastEnabledRules (setRulesArray a (setRulesMap m (checkSizes m a f))).

Definition updateRules (m : gmap string Rule) (a : list Rule) (f : t) : t :=
  pushRules (updateRulesLocally m a f).

Definition addRule (rule : Rule) (f : t) : Res t :=
  let rulesMap := getRulesMap f in
  if bool_decide (is_Some (rulesMap !! id rule))
  then Throw (Error "Rule ID cannot be added to rule factory due to conflict.")
  else
    let rulesMap := <[id rule := rule]> rulesMap in
    let rulesArray := getRulesArray f ++ [rule] in
    Ret (updateRules rulesMap rulesArray f).

Definition updateRuleWithNoSideEffects (rule : Rule) (f : t) : t :=
  let newRules := <[id rule := rule]> (getRulesMap f) in
  let f := setRulesMap newRules f in
  setRulesArray
    (map (fun value => if String.eqb (id value) (id rule) then rule else value)
       (getRulesArray f))
    f.

Definition removeRule (i : string) (f : t) : Res t :=
  let rulesMap := getRulesMap f in
  match rulesMap !! i with
  | None => Ret (logError "Unable to find rule id in rule map to delete" f)
  | Some rule =>
      if negb (bool_decide (is_Some (rulesMap !! i)))
      then Throw (Error "RulesMap: cannot find ID to delete.")
      else
        let rulesMap := delete i rulesMap in
        let rulesArray :=
          filter (fun val => id val <> id rule) (getRulesArray f) in
        Ret (updateRules rulesMap rulesArray f)
  end.

(** [pushOccurrences]: the rule, with its ranges and count written into it,
    replaces the stored rule of the same identifier, and the view is told. *)
Definition pushOccurrences (rule : Rule) (ranges : list LineRange)
  (occurrences : Z) (f : t) : t :=
  let rule := withReport rule ranges occurrences in
  postMessage (mkMessage (id rule) ranges occurrences)
    (updateRuleWithNoSideEffects rule f).

(** [disableRules] and [enableRules]: the flag is written into every rule of
    the array and of the map, and both are stored and broadcast. *)
Definition disableRules (f : t) : t :=
  updateRules (withEnabled false <$> getRulesMap f)
    (map (withEnabled false) (getRulesArray f)) f.

Definition enableRules (f : t) : t :=
  updateRules (withEnabled true <$> getRulesMap f)
    (map (withEnabled true) (getRulesArray f)) f.

End WithLocation.

Arguments t : clear implicits.

End RuleFactory.

(** ** The decoration type manager *)

(** A text editor: its identity and the document it shows. *)
Record TextEditor := mkEditor {
  editorId : nat;
  editorDocument : TextDocument.t
}.

(** What the manager asks of the active editor. *)
Inductive EditorCall :=
| SetDecorations (decorationType : nat) (decorations : list DecorationOptions)
| RevealRange (r : Range.t).

Module DecorationTypeManager.

Section WithLocation.

Context {LocationState : Type} `{Countable LocationState}.

Abbreviation Factory := (RuleFactory.t LocationState).

(** Decoration types are handles the editor hands out; [nextDecorationType] is
    the next one.  Sets of handles keep their insertion order. *)
Record t := mk {
  _activeEditor : option TextEditor;
  lastActiveEditor : option TextEditor;
  _decorationSet : list nat;
  _factoryToDecorations : gmap LocationState (list nat);
  _ruleToDecorationType : gmap string nat;
  _ruleToActiveOccurrences : gmap string (list Range.t);
  _factoryToOldEnabledRules : gmap LocationState (list Rule);
  _activeDecorations : gmap nat (list DecorationOptions);
  nextDecorationType : nat;
  (** The calls made on the active editor, oldest first. *)
  editorCalls : list EditorCall;
  (** The lines written to the error log, oldest first. *)
  errors : list string
}.

Definition new (factories : list Factory) : t :=
  mk None None []
    (list_to_map (map (fun f => (RuleFactory.location f, [])) factories))
    ∅ ∅ ∅ ∅ O [] [].

Definition call (c : EditorCall) (m : t) : t :=
  match _activeEditor m with
  | Some _ =>
      mk (_activeEditor m) (lastActiveEditor m) (_decorationSet m)
        (_factoryToDecorations m) (_ruleToDecorationType m)
        (_ruleToActiveOccurrences m) (_factoryToOldEnabledRules m)
        (_activeDecorations m) (nextDecorationType m)
        (editorCalls m ++ [c]) (errors m)
  | None => m
  end.

Definition logError (line : string) (m : t) : t :=
  mk (_activeEditor m) (lastActiveEditor m) (_decorationSet m)
    (_factoryToDecorations m) (_ruleToDecorationType m)
    (_ruleToActiveOccurrences m) (_factoryToOldEnabledRules m)
    (_activeDecorations m) (nextDecorationType m)
    (editorCalls m) (errors m ++ [line]).

Definition setOldEnabledRules (location : LocationState) (rules : list Rule)
  (m : t) : t :=
  mk (_activeEditor m) (lastActiveEditor m) (_decorationSet m)
    (_factoryToDecorations m) (_ruleToDecorationType m)
    (_ruleToActiveOccurrences m)
    (<[location := rules]> (_factoryToOldEnabledRules m))
    (_activeDecorations m) (nextDecorationType m)
    (editorCalls m) (errors m).

Definition setActiveOccurrences (ruleId : string) (ranges : list Range.t)
  (m : t) : t :=
  mk (_activeEditor m) (lastActiveEditor m) (_decorationSet m)
    (_factoryToDecorations m) (_ruleToDecorationType m)
    (<[ruleId := ranges]> (_ruleToActiveOccurrences m))
    (_factoryToOldEnabledRules m)
    (_activeDecorations m) (nextDecorationType m)
    (editorCalls m) (errors m).

(** [set.add(x)]. *)
Definition add (x : nat) (s : list nat) : list nat :=
  if bool_decide (x ∈ s) then s else s ++ [x].

(** The comparison of one rule with the rule that was at its index the last
    time: every property "that corresponds to needing a decoration
    update". *)
Definition ruleChanged (matchingOldRule element : Rule) : bool :=
  negb (String.eqb (backgroundColor matchingOldRule) (backgroundColor element))
  || negb (String.eqb (border matchingOldRule) (border element))
  || negb (String.eqb (borderColor matchingOldRule) (borderColor element))
  || negb (String.eqb (borderWidth matchingOldRule) (borderWidth element))
  || negb (String.eqb (color matchingOldRule) (color element))
  || negb (String.eqb (cursor matchingOldRule) (cursor element))
  || negb (String.eqb (excludedFiles matchingOldRule) (excludedFiles element))
  || negb (String.eqb (includedFiles matchingOldRule) (includedFiles element))
  || negb (String.eqb (fontStyle matchingOldRule) (fontStyle element))
  || negb (String.eqb (fontWeight matchingOldRule) (fontWeight element))
  || negb (Bool.eqb (isWholeLine matchingOldRule) (isWholeLine element))
  || negb (bool_decide (maxOccurrences matchingOldRule = maxOccurrences element))
  || negb (String.eqb (outline matchingOldRule) (outline element))
  || negb (String.eqb (outlineColor matchingOldRule) (outlineColor element))
  || negb (String.eqb (outlineWidth matchingOldRule) (outlineWidth element))
  || negb (String.eqb (overviewRulerColor matchingOldRule)
             (overviewRulerColor element))
  || negb (Z.eqb (overviewRulerLane matchingOldRule) (overviewRulerLane element))
  || negb (String.eqb (regularExpression matchingOldRule)
             (regularExpression element))
  || negb (String.eqb (regularExpressionFlags matchingOldRule)
             (regularExpressionFlags element))
  || negb (String.eqb (textDecoration matchingOldRule) (textDecoration element))
  || negb (String.eqb (title matchingOldRule) (title element)).

(** The loop of [isDecorationChangeInArray] from index [i] on; [rest] holds
    the new rules from that index. *)
Fixpoint changeFrom (i : nat) (rest oldEnabledRules : list Rule) : bool :=
  match rest with
  | [] => false
  | element :: rest' =>
      match oldEnabledRules !! i with
      | None => true
      | Some matchingOldRule =>
          if negb (String.eqb (id element) (id matchingOldRule)) then true
          else if ruleChanged matchingOldRule element then true
          else changeFrom (S i) rest' oldEnabledRules
      end
  end.

Definition isDecorationChangeInArray (enabledRules : list Rule)
  (location : LocationState) (m : t) : bool :=
  match _factoryToOldEnabledRules m !! location with
  | None => true
  | Some oldEnabledRules =>
      if negb (Nat.eqb (length enabledRules) (length oldEnabledRules))
      then true
      else changeFrom 0 enabledRules oldEnabledRules
  end.

(** [toLineRanges]: the occurrences as the view gets them.  The editor it
    reads the lines from is the active one. *)
Definition toLineRange (d : TextDocument.t) (ruleId : string) (index : nat)
  (r : Range.t) : Res LineRange :=
  _ ← TextDocument.lineAt d (Position.line (Range.start r));
  let lineStart := Position.mk (Position.line (Range.start r)) 0 in
  let lineStartOffset := TextDocument.offsetAt d lineStart in
  let lineNumbers :=
    seq (Position.line (Range.start r))
      (S (Position.line (Range.end_ r)) - Position.line (Range.start r)) in
  lines ← mapM (TextDocument.lineAt d) lineNumbers;
  Ret (mkLineRange ruleId (Z.of_nat index) lines lineNumbers
         (Z.of_nat (TextDocument.offsetAt d (Range.start r))
          - Z.of_nat lineStartOffset)
         (Z.of_nat (TextDocument.offsetAt d (Range.end_ r))
          - Z.of_nat lineStartOffset)
         index).

Fixpoint toLineRangesFrom (d : TextDocument.t) (ruleId : string) (index : nat)
  (ranges : list Range.t) : Res (list LineRange) :=
  match ranges with
  | [] => Ret []
  | r :: ranges' =>
      lr ← toLineRange d ruleId index r;
      rest ← toLineRangesFrom d ruleId (S index) ranges';
      Ret (lr :: rest)
  end.

Definition toLineRanges (activeEditor : option TextEditor) (ruleId : string)
  (ranges : list Range.t) : Res (list LineRange) :=
  match activeEditor with
  | Some e => toLineRangesFrom (editorDocument e) ruleId 0 ranges
  | None => Ret []
  end.

(** [clearDecorationsByFactory]: every decoration type of the factory is
    emptied on the active editor. *)
Definition clearDecorationsByFactory (f : Factory) (m : t) : t :=
  foldl (fun m decorationType => call (SetDecorations decorationType []) m) m
    (default [] (_factoryToDecorations m !! RuleFactory.location f)).

Definition clearDecorations (rule : Rule) (m : t) : t :=
  match _ruleToDecorationType m !! id rule with
  | Some decorationType => call (SetDecorations decorationType []) m
  | None => m
  end.

(** [getTextEditorDecorationType]: the rule's former decoration type is
    emptied and a new one is created and registered. *)
Definition getTextEditorDecorationType (rule : Rule) (m : t) : nat * t :=
  let m := clearDecorations rule m in
  let decType := nextDecorationType m in
  (decType,
   mk (_activeEditor m) (lastActiveEditor m) (add decType (_decorationSet m))
     (_factoryToDecorations m)
     (<[id rule := decType]> (_ruleToDecorationType m))
     (_ruleToActiveOccurrences m) (_factoryToOldEnabledRules m)
     (_activeDecorations m) (S decType) (editorCalls m) (errors m)).

Definition registerDecorations (location : LocationState) (decType : nat)
  (decorations : list DecorationOptions) (m : t) : t :=
  mk (_activeEditor m) (lastActiveEditor m) (_decorationSet m)
    (alter (add decType) location (_factoryToDecorations m))
    (_ruleToDecorationType m) (_ruleToActiveOccurrences m)
    (_factoryToOldEnabledRules m)
    (<[decType := decorations]> (_activeDecorations m))
    (nextDecorationType m) (editorCalls m) (errors m).

Definition clearDecorationTypes (m : t) : t :=
  mk (_activeEditor m) (lastActiveEditor m) (_decorationSet m)
    (_factoryToDecorations m) ∅ (_ruleToActiveOccurrences m)
    (_factoryToOldEnabledRules m) (_activeDecorations m)
    (nextDecorationType m) (editorCalls m) (errors m).

Definition setLastActiveEditor (e : option TextEditor) (m : t) : t :=
  mk (_activeEditor m) e (_decorationSet m)
    (_factoryToDecorations m) (_ruleToDecorationType m)
    (_ruleToActiveOccurrences m) (_factoryToOldEnabledRules m)
    (_activeDecorations m) (nextDecorationType m) (editorCalls m) (errors m).

Section WithEngine.

Context `{Engine}.

(** The [try] block of [updateDecorations] for one rule: compile, scan the
    whole text, store the ranges, report them, decorate.  The handler inside
    is the [catch] of [updateDecorations] as it applies once the ranges are
    stored; the editor [toLineRanges] reads from is the manager's active
    one. *)
Definition scanRule (fuel : nat) (activeEditor : TextEditor) (rule : Rule)
  (m : t) (f : Factory) : Res (t * Factory) :=
  let d := editorDocument activeEditor in
  regEx ← new_RegExp (regularExpression rule)
             (or_else (regularExpressionFlags rule) "g");
  let text := TextDocument.getText d in
  found ← execLoop fuel regEx text (fun n => Z.of_nat n <? cap rule) 0 [];
  let ranges := map (rangeOfMatch d 0) found in
  let decorations :=
    imap (fun i r => mkDecoration r (title rule) (S i)) ranges in
  let m := setActiveOccurrences (id rule) ranges m in
  try_catch
    (lineRanges ← toLineRanges (_activeEditor m) (id rule) ranges;
     let f :=
       RuleFactory.pushOccurrences rule lineRanges
         (Z.of_nat (length decorations)) f in
     let '(textEditorDecorationType, m) := getTextEditorDecorationType rule m in
     let m :=
       registerDecorations (RuleFactory.location f) textEditorDecorationType
         decorations m in
     Ret (call (SetDecorations textEditorDecorationType decorations) m, f))
    (fun _ => Ret (m, RuleFactory.pushOccurrences rule [] 0 f)).

(** The body of the loop over the enabled rules. *)
Definition decorateRule (fuel : nat) (activeEditor : TextEditor) (rule : Rule)
  (st : t * Factory) : Res (t * Factory) :=
  let '(m, f) := st in
  let fileName := chars (TextDocument.fileName (editorDocument activeEditor)) in
  excluded ←
    (if String.eqb (excludedFiles rule) "" then Ret false
     else exclude ← new_RegExp (excludedFiles rule) "";
          Ret (RegExp.test exclude fileName));
  if (excluded : bool) then Ret (m, RuleFactory.pushOccurrences rule [] 0 f)
  else
    notIncluded ←
      (if String.eqb (includedFiles rule) "" then Ret false
       else include ← new_RegExp (includedFiles rule) "";
            Ret (negb (RegExp.test include fileName)));
    if (notIncluded : bool)
    then Ret (m, RuleFactory.pushOccurrences rule [] 0 f)
    else if String.eqb (regularExpression rule) ""
    then Ret (m, RuleFactory.pushOccurrences rule [] 0 f)
    else
      try_catch (scanRule fuel activeEditor rule m f)
        (fun _ => Ret (m, RuleFactory.pushOccurrences rule [] 0 f)).

Fixpoint forEachRule (fuel : nat) (activeEditor : TextEditor)
  (enabledRules : list Rule) (st : t * Factory) : Res (t * Factory) :=
  match enabledRules with
  | [] => Ret st
  | rule :: rest =>
      st ← decorateRule fuel activeEditor rule st;
      forEachRule fuel activeEditor rest st
  end.

Definition sameEditor (a b : option TextEditor) : bool :=
  match a, b with
  | Some x, Some y => Nat.eqb (editorId x) (editorId y)
  | None, None => true
  | _, _ => false
  end.

Definition updateDecorations (fuel : nat) (enabledRules : list Rule)
  (st : t * Factory) : Res (t * Factory) :=
  let '(m, f) := st in
  if RuleFactory.locked f then Ret (m, f)
  else
    match _activeEditor m with
    | None =>
        Ret (logError "Cannot apply decorations to falsey active editor" m,
             foldl (fun f rule => RuleFactory.pushOccurrences rule [] 0 f)
               f enabledRules)
    | Some activeEditor =>
        let m :=
          if negb (sameEditor (_activeEditor m) (lastActiveEditor m))
          then clearDecorationTypes (setLastActiveEditor (_activeEditor m) m)
          else m in
        let m := clearDecorationsByFactory f m in
        forEachRule fuel activeEditor enabledRules (m, f)
    end.

(** The subscriber of [$enabledRules] set up by [enableDecorationDetection]:
    what the manager does with one list of enabled rules. *)
Definition onEnabledRules (fuel : nat) (enabledRules : list Rule)
  (st : t * Factory) : Res (t * Factory) :=
  let '(m, f) := st in
  '(m, f) ←
    (if isDecorationChangeInArray enabledRules (RuleFactory.location f) m
     then updateDecorations fuel enabledRules (clearDecorationsByFactory f m, f)
     else Ret (m, f));
  Ret (setOldEnabledRules (RuleFactory.location f) enabledRules m, f).

(** *** What an exception leaves behind

    The manager and the factory are objects written in place: what was
    written before an exception is thrown stays written.  In the loop of
    [updateDecorations] the exceptions that get out are those of the two
    filter compilations; they come first in an iteration, before anything is
    written, so the loop leaves behind the state after the last iteration
    that returned. *)
Fixpoint forEachRuleLeaves (fuel : nat) (activeEditor : TextEditor)
  (enabledRules : list Rule) (st : t * Factory) : t * Factory :=
  match enabledRules with
  | [] => st
  | rule :: rest =>
      match decorateRule fuel activeEditor rule st with
      | Ret st' => forEachRuleLeaves fuel activeEditor rest st'
      | _ => st
      end
  end.

Definition updateDecorationsLeaves (fuel : nat) (enabledRules : list Rule)
  (st : t * Factory) : t * Factory :=
  let '(m, f) := st in
  if RuleFactory.locked f then (m, f)
  else
    match _activeEditor m with
    | None =>
        (logError "Cannot apply decorations to falsey active editor" m,
         foldl (fun f rule => RuleFactory.pushOccurrences rule [] 0 f)
           f enabledRules)
    | Some activeEditor =>
        let m :=
          if negb (sameEditor (_activeEditor m) (lastActiveEditor m))
          then clearDecorationTypes (setLastActiveEditor (_activeEditor m) m)
          else m in
        let m := clearDecorationsByFactory f m in
        forEachRuleLeaves fuel activeEditor enabledRules (m, f)
    end.

(** The subscriber ends with the assignment of the remembered list, which an
    exception of the update skips.  The subscription outlives the exception:
    the next list is handed to the same subscriber, in the state the
    exception left. *)
Definition onEnabledRulesLeaves (fuel : nat) (enabledRules : list Rule)
  (st : t * Factory) : t * Factory :=
  let '(m, f) := st in
  if isDecorationChangeInArray enabledRules (RuleFactory.location f) m
  then
    let m := clearDecorationsByFactory f m in
    let '(m', f') := updateDecorationsLeaves fuel enabledRules (m, f) in
    if returns (updateDecorations fuel enabledRules (m, f))
    then (setOldEnabledRules (RuleFactory.location f') enabledRules m', f')
    else (m', f')
  else (setOldEnabledRules (RuleFactory.location f) enabledRules m, f).

End WithEngine.

(** [clearAllDecorations]: every decoration type ever created is emptied on
    the active editor, and the set of types, the active decorations and the
    stored occurrences are dropped. *)
Definition clearAllDecorations (m : t) : t :=
  let m' :=
    foldl (fun m decorationType => call (SetDecorations decorationType []) m)
      m (_decorationSet m) in
  mk (_activeEditor m) (lastActiveEditor m) []
    (_factoryToDecorations m) (_ruleToDecorationType m) ∅
    (_factoryToOldEnabledRules m) ∅ (nextDecorationType m)
    (editorCalls m') (errors m).

(** The range [jumpToLine] looks up:
    [_ruleToActiveOccurrences.get(lineRange?.ruleId)?.[lineRange.index]]. *)
Definition occurrenceAt (lineRange : option LineRange) (m : t)
  : option Range.t :=
  match lineRange with
  | None => None
  | Some lr =>
      match _ruleToActiveOccurrences m !! lr_ruleId lr with
      | None => None
      | Some ranges => at_ ranges (lr_index lr)
      end
  end.

Definition jumpToLine (lineRange : option LineRange) (m : t) : t :=
  match occurrenceAt lineRange m with
  | Some r =>
      match _activeEditor m with
      | Some _ => call (RevealRange r) m
      | None =>
          logError "Attempting to jump failed as active editor is nullish." m
      end
  | None => m
  end.

End WithLocation.

Arguments t LocationState {_ _}.

End DecorationTypeManager.

(** ** Properties of a store, and the candidate span in the words of the
    specification *)

(** Sorted by start and pairwise non-overlapping: each range ends at or before
    the start of the next. *)
Fixpoint sortedNonOverlapping (ranges : list Range.t) : bool :=
  match ranges with
  | a :: (b :: _) as rest =>
      Position.isBeforeOrEqual (Range.end_ a) (Range.start b)
      && sortedNonOverlapping rest
  | _ => true
  end.

(** The candidate span as the specification words it: the edit's old range
    "expanded by one unit on each side (clamped to buffer bounds)". *)
Definition specCandidateSpan (d : TextDocument.t) (oldRange : Range.t)
  : Range.t :=
  let s := TextDocument.offsetAt d (Range.start oldRange) in
  let e := TextDocument.offsetAt d (Range.end_ oldRange) in
  Range.new
    (TextDocument.positionAt d (s - 1))
    (TextDocument.positionAt d (Nat.min (e + 1) (length (TextDocument.text d)))).

(** The candidate span the incremental update searches the store with. *)
Definition candidateSpan (contentChange : ContentChange) : Range.t :=
  DecorationTypeWrapper.paddedRange
    (DecorationTypeWrapper.getFullLineRange (cc_range contentChange)).

(** The rules a filter cannot stop with an exception: each filter that is set
    compiles. *)
Definition filtersCompile `{Engine} (rule : Rule) : Prop :=
  (excludedFiles rule = "" ∨ is_Some (compile (excludedFiles rule) ""))
  ∧ (includedFiles rule = "" ∨ is_Some (compile (includedFiles rule) "")).

(** The rules whose pattern the engine refuses. *)
Definition patternInvalid `{Engine} (rule : Rule) : Prop :=
  compile (regularExpression rule)
    (or_else (regularExpressionFlags rule) "g") = None.

(** One call of [pushOccurrences], and a factory after a sequence of them. *)
Record Report := mkReport {
  rep_rule : Rule;
  rep_ranges : list LineRange;
  rep_occurrences : Z
}.

Definition reported {LocationState : Type} (f : RuleFactory.t LocationState)
  (reports : list Report) : RuleFactory.t LocationState :=
  foldl
    (fun f r =>
       RuleFactory.pushOccurrences (rep_rule r) (rep_ranges r)
         (rep_occurrences r) f)
    f reports.

(** Two rules that are the same but for the report written into them by
    [pushOccurrences]. *)
Definition sameButReport (a b : Rule) : Prop :=
  withReport a [] 0 = withReport b [] 0.

(** Matches in text order from offset [lo] on: each starts at or after the
    end of the one before it. *)
Fixpoint orderedFrom (lo : nat) (ms : list RegExp.Match) : Prop :=
  match ms with
  | [] => True
  | m :: ms' =>
      (lo ≤ RegExp.index m)%nat
      ∧ orderedFrom (RegExp.index m + RegExp.matched m) ms'
  end.

(** The end of the last of the matches, or [lo] when there is none. *)
Definition lastEnd (lo : nat) (ms : list RegExp.Match) : nat :=
  foldl (fun _ m => (RegExp.index m + RegExp.matched m)%nat) lo ms.

(** The order of positions as a proposition. *)
Definition posLe (p q : Position.t) : Prop :=
  (Position.line p < Position.line q)%nat
  ∨ (Position.line p = Position.line q
     ∧ (Position.character p ≤ Position.character q)%nat).

(** What [isDecorationChangeInArray] compares between the rule that was at an
    index and the rule that is there now: the identifier and twenty-one
    properties. *)
Definition sameCompared (matchingOldRule element : Rule) : Prop :=
  id element = id matchingOldRule
  ∧ backgroundColor matchingOldRule = backgroundColor element
  ∧ border matchingOldRule = border element
  ∧ borderColor matchingOldRule = borderColor element
  ∧ borderWidth matchingOldRule = borderWidth element
  ∧ color matchingOldRule = color element
  ∧ cursor matchingOldRule = cursor element
  ∧ excludedFiles matchingOldRule = excludedFiles element
  ∧ includedFiles matchingOldRule = includedFiles element
  ∧ fontStyle matchingOldRule = fontStyle element
  ∧ fontWeight matchingOldRule = fontWeight element
  ∧ isWholeLine matchingOldRule = isWholeLine element
  ∧ maxOccurrences matchingOldRule = maxOccurrences element
  ∧ outline matchingOldRule = outline element
  ∧ outlineColor matchingOldRule = outlineColor element
  ∧ outlineWidth matchingOldRule = outlineWidth element
  ∧ overviewRulerColor matchingOldRule = overviewRulerColor element
  ∧ overviewRulerLane matchingOldRule = overviewRulerLane element
  ∧ regularExpression matchingOldRule = regularExpression element
  ∧ regularExpressionFlags matchingOldRule = regularExpressionFlags element
  ∧ textDecoration matchingOldRule = textDecoration element
  ∧ title matchingOldRule = title element.

(** ** Concrete inputs *)

Module Sample.

Definition pos (l c : nat) : Position.t := Position.mk l c.

Definition span (l1 c1 l2 c2 : nat) : Range.t :=
  Range.mk (pos l1 c1) (pos l2 c2).

Definition newline : string := String TextDocument.LF "".

(** A rule that differs from a fresh one in its pattern, flags, cap and
    exclusion filter. *)
Definition rule (i pattern flags : string) (maxOcc : option Z)
  (excluded : string) : Rule :=
  mkRule true false false i i 7 "" (Some 0) maxOcc pattern flags "" excluded
    "" "" "" "" "" "" "" "" "400" "" "" "" false [].

Definition fooRule : Rule := rule "r-foo" "foo" "" (Some 1000) "".
Definition aRule : Rule := rule "r-a" "a" "g" (Some 1) "".
Definition emptyRule : Rule := rule "r-empty" "" "g" (Some 2) "".
Definition aOnceRule : Rule := rule "r-a-once" "a" "i" (Some 3) "".
Definition badRule : Rule := rule "r-bad" "(" "" (Some 1000) "".
Definition badFilterRule : Rule := rule "r-filter" "foo" "" (Some 1000) "(".

Definition doc (name text : string) : TextDocument.t :=
  TextDocument.mk name (chars text).

(** Two empty lines, then [foo]. *)
Definition fooBelow : TextDocument.t :=
  doc "notes.txt" (newline +:+ newline +:+ "foo").

(** Typing [foo] at the very start of the document. *)
Definition typeFoo : ContentChange := mkChange (span 0 0 0 0) (chars "foo").

Definition fooBarFoo : TextDocument.t := doc "notes.txt" "foo bar foo".

Definition barToBarbaz : ContentChange :=
  mkChange (span 0 4 0 7) (chars "barbaz").

Definition emptyDoc : TextDocument.t := doc "notes.txt" "".

Definition typeAaa : ContentChange := mkChange (span 0 0 0 0) (chars "aaa").

Definition typeX : ContentChange := mkChange (span 0 0 0 0) (chars "x").

Definition otherDoc : TextDocument.t := doc "other.txt" "foo".

Definition helloWorld : TextDocument.t := doc "notes.txt" "hello world".

Definition blankToDash : ContentChange := mkChange (span 0 5 0 6) (chars "-").

(** A full rebuild of a fresh store, then one edit handled incrementally. *)
Definition rebuildThenEdit (fuel : nat) (d : TextDocument.t) (r : Rule)
  (c : ContentChange) : Res DecorationTypeWrapper.t :=
  w ← DecorationTypeWrapper.updateOccurrences fuel d None
         (DecorationTypeWrapper.new d r);
  DecorationTypeWrapper.generateOccurrencesOnChange fuel c
    (DecorationTypeWrapper.withDocument w (applyChange d c)).

(** One more edit, applied to the document and handled incrementally. *)
Definition thenEdit (fuel : nat) (c : ContentChange)
  (w : Res DecorationTypeWrapper.t) : Res DecorationTypeWrapper.t :=
  w ← w;
  DecorationTypeWrapper.generateOccurrencesOnChange fuel c
    (DecorationTypeWrapper.withDocument w
       (applyChange (DecorationTypeWrapper.document w) c)).

(** Deleting the three characters at the start of the document. *)
Definition deleteFoo : ContentChange := mkChange (span 0 0 0 3) [].

(** A full rebuild over the text after the edit. *)
Definition rebuildAfterEdit (fuel : nat) (d : TextDocument.t) (r : Rule)
  (c : ContentChange) : Res DecorationTypeWrapper.t :=
  DecorationTypeWrapper.updateOccurrences fuel (applyChange d c) None
    (DecorationTypeWrapper.new (applyChange d c) r).

Definition occurrencesOf (w : Res DecorationTypeWrapper.t)
  : Res (list Range.t) :=
  w ← w; Ret (DecorationTypeWrapper.activeOccurrences w).

Definition editor (d : TextDocument.t) : TextEditor := mkEditor 1 d.

(** A manager with an active editor, and an unlocked factory with a web view,
    at location 0. *)
Definition factory : RuleFactory.t nat :=
  RuleFactory.mk 0%nat false ∅ [] (Some true) [] [] 0 [].

Definition lockedFactory : RuleFactory.t nat :=
  RuleFactory.mk 0%nat true ∅ [] (Some true) [] [] 0 [].

Definition manager (d : TextDocument.t) : DecorationTypeManager.t nat :=
  DecorationTypeManager.mk (Some (editor d)) None [] {[ 0%nat := [] ]}
    ∅ ∅ ∅ ∅ 0 [] [].

Definition managerWith (ruleId : string) (ranges : list Range.t)
  : DecorationTypeManager.t nat :=
  DecorationTypeManager.setActiveOccurrences ruleId ranges (manager fooBarFoo).

Definition jumpTo (ruleId : string) (index : Z) : option LineRange :=
  Some (mkLineRange ruleId index [] [] 0 0 0).

(** The store of [fooRule] over [foo bar foo] and over [fooBelow], as a full
    rebuild leaves them. *)
Definition fooStore : DecorationTypeWrapper.t :=
  DecorationTypeWrapper.mk fooBarFoo fooRule
    [mkDecoration (span 0 0 0 3) "r-foo" 1;
     mkDecoration (span 0 8 0 11) "r-foo" 2]
    [span 0 0 0 3; span 0 8 0 11].

Definition fooBelowStore : DecorationTypeWrapper.t :=
  DecorationTypeWrapper.mk fooBelow fooRule
    [mkDecoration (span 2 0 2 3) "r-foo" 1] [span 2 0 2 3].

(** The expression the literal engine compiles [foo] with the flag [g] to. *)
Definition fooRegExp : RegExp.t :=
  RegExp.mk true false (Literal.matchAt false (chars "foo")).

(** A manager without an active editor. *)
Definition idleManager : DecorationTypeManager.t nat :=
  DecorationTypeManager.mk None None [] {[ 0%nat := [] ]} ∅ ∅ ∅ ∅ 0 [] [].

(** A rule whose pattern and whose exclusion filter are both ["("]. *)
Definition badBoth : Rule := rule "r-both" "(" "" (Some 1000) "(".

(** The identifier and the count of each message posted to the view. *)
Definition postedCounts (st : DecorationTypeManager.t nat * RuleFactory.t nat)
  : list (string * Z) :=
  map (fun msg => (msg_id msg, msg_occurrences msg)) (RuleFactory.posted st.2).

(** The rule for [foo], then the rule with the malformed filter; the state
    after this list was delivered once, and after it was delivered twice. *)
Definition fooThenBadFilter : list Rule := [fooRule; badFilterRule].

Definition deliveredOnce : DecorationTypeManager.t nat * RuleFactory.t nat :=
  DecorationTypeManager.onEnabledRulesLeaves 10 fooThenBadFilter
    (manager fooBarFoo, factory).

Definition deliveredTwice : DecorationTypeManager.t nat * RuleFactory.t nat :=
  DecorationTypeManager.onEnabledRulesLeaves 10 fooThenBadFilter deliveredOnce.

End Sample.

(** * Theorems *)

(** ** The store under full rebuilds and incremental updates *)

Module StoreFacts.

Import DecorationTypeWrapper Sample.

(** The scenario of the specification: [foo bar foo], with [bar] replaced by
    [barbaz].  Here the incremental update and the full rebuild agree. *)
Example scenario_foo_bar_foo :
  occurrencesOf (rebuildThenEdit 10 fooBarFoo fooRule barToBarbaz)
  = Ret [span 0 0 0 3; span 0 11 0 14]
  ∧ occurrencesOf (rebuildAfterEdit 10 fooBarFoo fooRule barToBarbaz)
    = Ret [span 0 0 0 3; span 0 11 0 14].
Proof. split; vm_compute; reflexivity. Qed.

(** C1, at the failing input.  The document holds [foo] on its third line and
    [foo] is typed at the start of the first line.  The search finds no stored
    match near the edit and answers with the insertion index [left + 1 = 1],
    so the new match of line 0 is stored after the old match of line 2,
    while a full rebuild over the final text lists them in text order. *)
Theorem incremental_update_differs_from_rebuild :
  occurrencesOf (rebuildThenEdit 10 fooBelow fooRule typeFoo)
  = Ret [span 2 0 2 3; span 0 0 0 3]
  ∧ occurrencesOf (rebuildAfterEdit 10 fooBelow fooRule typeFoo)
    = Ret [span 0 0 0 3; span 2 0 2 3].
Proof. split; vm_compute; reflexivity. Qed.

(** Typing [foo] and deleting it again brings the text back, but not the
    store: the match that was typed stays in it. *)
Example insert_then_delete_keeps_stale_match :
  (w ← thenEdit 10 deleteFoo (rebuildThenEdit 10 fooBelow fooRule typeFoo);
   Ret (TextDocument.text (document w), activeOccurrences w))
  = Ret (TextDocument.text fooBelow, [span 2 0 2 3; span 0 0 0 3])
  ∧ occurrencesOf (updateOccurrences 10 fooBelow None (new fooBelow fooRule))
    = Ret [span 2 0 2 3].
Proof. split; vm_compute; reflexivity. Qed.

(** C2, at the failing input: after the incremental update for an edit above
    the only stored match, the store is not sorted by start. *)
Theorem incremental_update_leaves_store_unsorted :
  (w ← rebuildThenEdit 10 fooBelow fooRule typeFoo;
   Ret (sortedNonOverlapping (activeOccurrences w)))
  = Ret false.
Proof. vm_compute; reflexivity. Qed.

(** C3, at the failing input: with a cap of one and an empty store, typing
    [aaa] stores three matches; the full rebuild of the same text stores
    one. *)
Theorem incremental_update_exceeds_cap :
  cap aRule = 1
  ∧ (w ← rebuildThenEdit 10 emptyDoc aRule typeAaa;
     Ret (length (activeOccurrences w))) = Ret 3%nat
  ∧ occurrencesOf (rebuildAfterEdit 10 emptyDoc aRule typeAaa)
    = Ret [span 0 0 0 1].
Proof. repeat split; vm_compute; reflexivity. Qed.

(** Without the [g] flag [exec] starts over at index 0 every time, and the
    full rebuild stores the first match as often as the cap allows: ranges that
    overlap. *)
Example rebuild_without_global_flag :
  occurrencesOf
    (updateOccurrences 10 (doc "notes.txt" "a") None
       (new (doc "notes.txt" "a") aOnceRule))
  = Ret [span 0 0 0 1; span 0 0 0 1; span 0 0 0 1]
  ∧ sortedNonOverlapping [span 0 0 0 1; span 0 0 0 1; span 0 0 0 1] = false.
Proof. split; vm_compute; reflexivity. Qed.

End StoreFacts.

(** ** The scan loop *)

Module LoopFacts.

Section ExecLoop.

Variables (re : RegExp.t) (s : list ascii).

(** The loop never throws, whatever its guard. *)
Lemma execLoop_no_throw fuel guard lastIndex found e :
  execLoop fuel re s guard lastIndex found ≠ Throw e.
Proof.
  revert lastIndex found.
  induction fuel as [|fuel IH]; intros lastIndex found; cbn [execLoop];
    [discriminate|].
  destruct (RegExp.exec re lastIndex s) as [[m|] lastIndex']; [|discriminate].
  destruct (guard (length found)); [apply IH | discriminate].
Qed.

(** What the loop returns extends what it started with. *)
Lemma execLoop_prefix fuel guard lastIndex found res :
  execLoop fuel re s guard lastIndex found = Ret res →
  ∃ more, res = found ++ more.
Proof.
  revert lastIndex found.
  induction fuel as [|fuel IH]; intros lastIndex found; cbn [execLoop];
    [discriminate|].
  destruct (RegExp.exec re lastIndex s) as [[m|] lastIndex'].
  - destruct (guard (length found)).
    + intros Hres. destruct (IH _ _ Hres) as [more ->].
      exists (m :: more). by rewrite <- app_assoc.
    + intros [= <-]. exists []. by rewrite app_nil_r.
  - intros [= <-]. exists []. by rewrite app_nil_r.
Qed.

(** With the guard of the full rebuilds, [decorations.length < cap], the loop
    returns as soon as the fuel exceeds what the cap still allows, and never
    holds more matches than the cap (or than it started with). *)
Lemma execLoop_capped (c : Z) fuel lastIndex found :
  (Z.to_nat (c - Z.of_nat (length found)) < fuel)%nat →
  ∃ res,
    execLoop fuel re s (fun n => Z.of_nat n <? c) lastIndex found = Ret res
    ∧ Z.of_nat (length res) ≤ Z.max c (Z.of_nat (length found)).
Proof.
  revert lastIndex found.
  induction fuel as [|fuel IH]; intros lastIndex found Hfuel; [lia|].
  cbn [execLoop].
  destruct (RegExp.exec re lastIndex s) as [[m|] lastIndex'].
  - destruct (Z.ltb_spec (Z.of_nat (length found)) c) as [Hlt|Hge].
    + destruct (IH lastIndex' (found ++ [m])) as (res & Hres & Hlen).
      { rewrite length_app. cbn [length]. lia. }
      exists res. split; [exact Hres|].
      rewrite length_app in Hlen. cbn [length] in Hlen. lia.
    + exists found. split; [reflexivity | lia].
  - exists found. split; [reflexivity | lia].
Qed.

(** When the guard does not depend on the matches appended and holds, and
    [exec] hands back the same match with the cursor where it was, the loop
    uses up any fuel. *)
Lemma execLoop_stuck (guard : nat → bool) lastIndex m fuel found :
  (∀ n, guard n = true) →
  RegExp.exec re lastIndex s = (Some m, lastIndex) →
  execLoop fuel re s guard lastIndex found = OutOfFuel.
Proof.
  intros Hguard Hexec. revert found.
  induction fuel as [|fuel IH]; intros found; cbn [execLoop]; [reflexivity|].
  rewrite Hexec, Hguard. apply IH.
Qed.

End ExecLoop.

End LoopFacts.

(** ** The search for intersecting occurrences *)

Module SearchFacts.

Import DecorationTypeWrapper.

Lemma at_Some {A} (l : list A) (i : Z) (x : A) :
  at_ l i = Some x → 0 ≤ i ∧ (Z.to_nat i < length l)%nat.
Proof.
  unfold at_. destruct (Z.ltb_spec i 0); [discriminate|].
  intros Hx. split; [lia|]. by apply lookup_lt_Some in Hx.
Qed.

(** The walk to the left returns when it starts inside the array. *)
Lemma goLeft_returns ccr occ k inter :
  (k ≤ length occ)%nat → ∃ res, goLeft ccr occ k inter = Ret res.
Proof.
  revert inter. induction k as [|k IH]; intros inter Hk; cbn [goLeft];
    [eauto|].
  destruct (occ !! k) as [o|] eqn:Ho.
  - destruct (Range.intersection ccr o); [apply IH; lia | eauto].
  - apply lookup_ge_None in Ho. lia.
Qed.

(** The search never throws. *)
Lemma search_no_throw fuel ccr w l r e : search fuel ccr w l r ≠ Throw e.
Proof.
  revert l r. induction fuel as [|fuel IH]; intros l r; cbn [search];
    [discriminate|].
  destruct (l <=? r); [|discriminate].
  destruct (at_ (activeOccurrences w) ((l + r) `div` 2)) as [mid|] eqn:Hmid;
    [|discriminate].
  destruct (Range.intersection mid ccr).
  - apply at_Some in Hmid as [_ Hlt].
    destruct (goLeft_returns ccr (activeOccurrences w)
                (Z.to_nat ((l + r) `div` 2)) (Range.union ccr mid))
      as [[l' i'] ->]; [lia|].
    cbn. by destruct (goRight _ _ _ _).
  - destruct (Position.isBeforeOrEqual _ _); apply IH.
Qed.

(** What the search reports as removed comes with the range that was
    removed, and the search leaves the rule and the document alone. *)
Lemma search_result fuel ccr w l r ird w' :
  search fuel ccr w l r = Ret (ird, w') →
  (0 < IntersectingRangeData.removed ird →
   is_Some (IntersectingRangeData.range ird))
  ∧ rule w' = rule w ∧ document w' = document w.
Proof.
  revert l r. induction fuel as [|fuel IH]; intros l r; cbn [search];
    [discriminate|].
  destruct (l <=? r).
  - destruct (at_ (activeOccurrences w) ((l + r) `div` 2)) as [mid|].
    + destruct (Range.intersection mid ccr).
      * destruct (goLeft _ _ _ _) as [[l' i']| |]; cbn; try discriminate.
        destruct (goRight _ _ _ _) as [r' i''].
        intros [= <- <-]. cbn. eauto.
      * destruct (Position.isBeforeOrEqual _ _); apply IH.
    + intros [= <- <-]. cbn. split; [lia | done].
  - intros [= <- <-]. cbn. split; [lia | done].
Qed.

(** With more probes allowed than the store has entries, the search
    returns. *)
Lemma search_returns fuel ccr w l r :
  (Z.to_nat (r - l + 1) < fuel)%nat →
  ∃ res, search fuel ccr w l r = Ret res.
Proof.
  revert l r. induction fuel as [|fuel IH]; intros l r Hfuel; [lia|].
  cbn [search].
  destruct (Z.leb_spec l r); [|eauto].
  destruct (at_ (activeOccurrences w) ((l + r) `div` 2)) as [mid|] eqn:Hmid;
    [|eauto].
  destruct (Range.intersection mid ccr).
  - apply at_Some in Hmid as [_ Hlt].
    destruct (goLeft_returns ccr (activeOccurrences w)
                (Z.to_nat ((l + r) `div` 2)) (Range.union ccr mid))
      as [[l' i'] ->]; [lia|].
    cbn. destruct (goRight _ _ _ _). eauto.
  - assert (l ≤ (l + r) `div` 2 ≤ r)
      by (split; [apply Z.div_le_lower_bound | apply Z.div_le_upper_bound]; lia).
    destruct (Position.isBeforeOrEqual _ _); apply IH; lia.
Qed.

End SearchFacts.

(** ** The full rebuild *)

Module RebuildFacts.

Import DecorationTypeWrapper.

Lemma isBeforeOrEqual_true p q :
  Position.isBeforeOrEqual p q = true ↔ posLe p q.
Proof.
  unfold Position.isBeforeOrEqual, posLe.
  rewrite orb_true_iff, andb_true_iff, Nat.ltb_lt, Nat.eqb_eq, Nat.leb_le.
  tauto.
Qed.

Lemma isBefore_false p q : Position.isBefore q p = false ↔ posLe p q.
Proof.
  unfold Position.isBefore, posLe.
  rewrite orb_false_iff, andb_false_iff, Nat.ltb_ge, Nat.eqb_neq, Nat.ltb_ge.
  lia.
Qed.

(** Positions grow with offsets. *)
Lemma positionAt_from_ge s k l c :
  posLe (Position.mk l c) (TextDocument.positionAt_from s k l c).
Proof.
  revert k l c. induction s as [|ch s IH]; intros [|k] l c; cbn;
    try (right; cbn; lia).
  destruct (TextDocument.is_LF ch).
  - specialize (IH k (S l) O). unfold posLe in *. cbn in *. lia.
  - specialize (IH k l (S c)). unfold posLe in *. cbn in *. lia.
Qed.

Lemma positionAt_from_mono s a b l c :
  (a ≤ b)%nat →
  posLe (TextDocument.positionAt_from s a l c)
    (TextDocument.positionAt_from s b l c).
Proof.
  revert a b l c. induction s as [|ch s IH]; intros [|a] [|b] l c Hab;
    try lia; try (right; cbn; lia).
  - apply (positionAt_from_ge (ch :: s) (S b) l c).
  - cbn. destruct (TextDocument.is_LF ch); apply IH; lia.
Qed.

Lemma rangeOfMatch_ends d offset m :
  rangeOfMatch d offset m
  = Range.mk
      (TextDocument.positionAt d (offset + RegExp.index m))
      (TextDocument.positionAt d
         (offset + RegExp.index m + RegExp.matched m)).
Proof.
  unfold rangeOfMatch, Range.new.
  rewrite (proj2 (isBefore_false _ _)); [done|].
  apply positionAt_from_mono. lia.
Qed.

(** Matches in text order give a store that is sorted and does not overlap. *)
Lemma sorted_of_ordered d lo ms :
  orderedFrom lo ms →
  sortedNonOverlapping (map (rangeOfMatch d 0) ms) = true.
Proof.
  revert lo. induction ms as [|m1 [|m2 ms] IH]; intros lo; [done | done |].
  intros (_ & H2 & Hrest).
  change (Position.isBeforeOrEqual
            (Range.end_ (rangeOfMatch d 0 m1))
            (Range.start (rangeOfMatch d 0 m2))
          && sortedNonOverlapping (map (rangeOfMatch d 0) (m2 :: ms)) = true).
  rewrite (IH (RegExp.index m1 + RegExp.matched m1)%nat) by (split; done).
  rewrite !rangeOfMatch_ends, andb_true_r. cbn [Range.end_ Range.start].
  apply isBeforeOrEqual_true, positionAt_from_mono. lia.
Qed.

Lemma orderedFrom_snoc lo ms m :
  orderedFrom lo ms →
  (lastEnd lo ms ≤ RegExp.index m)%nat →
  orderedFrom lo (ms ++ [m]).
Proof.
  revert lo. induction ms as [|m1 ms IH]; intros lo; cbn.
  - done.
  - intros [Hlo Hms] Hlast. split; [exact Hlo|]. by apply IH.
Qed.

Lemma lastEnd_snoc lo ms m :
  lastEnd lo (ms ++ [m]) = (RegExp.index m + RegExp.matched m)%nat.
Proof. unfold lastEnd. by rewrite foldl_app. Qed.

Section Cursor.

Variables (re : RegExp.t) (s : list ascii).

Hypothesis cursor : RegExp.usesLastIndex re = true.

Lemma firstMatch_index n i m :
  RegExp.firstMatch re s n i = Some m → (i ≤ RegExp.index m)%nat.
Proof.
  revert i. induction n as [|n IH]; intros i; cbn; [done|].
  destruct (RegExp.matcher re s i).
  - intros [= <-]. cbn. lia.
  - destruct (RegExp.sticky re); [done|].
    intros Hm%IH. lia.
Qed.

(** With the cursor in use, a match starts at or after the cursor and moves
    the cursor to its end. *)
Lemma exec_cursor lastIndex m lastIndex' :
  RegExp.exec re lastIndex s = (Some m, lastIndex') →
  (lastIndex ≤ RegExp.index m)%nat
  ∧ lastIndex' = (RegExp.index m + RegExp.matched m)%nat.
Proof.
  unfold RegExp.exec. rewrite cursor.
  destruct (RegExp.firstMatch _ _ _ _) as [m'|] eqn:Hm; [|done].
  intros [= <- <-]. split; [by apply firstMatch_index in Hm | done].
Qed.

Lemma execLoop_ordered fuel guard lo lastIndex found res :
  execLoop fuel re s guard lastIndex found = Ret res →
  orderedFrom lo found →
  (lastEnd lo found ≤ lastIndex)%nat →
  orderedFrom lo res.
Proof.
  revert lastIndex found.
  induction fuel as [|fuel IH]; intros lastIndex found; cbn [execLoop];
    [done|].
  destruct (RegExp.exec re lastIndex s) as [[m|] lastIndex'] eqn:Hexec.
  - destruct (guard (length found)).
    + apply exec_cursor in Hexec as [Hstart ->].
      intros Hres Hfound Hlast. apply (IH _ _ Hres).
      * apply orderedFrom_snoc; [done | lia].
      * by rewrite lastEnd_snoc.
    + by intros [= <-].
  - by intros [= <-].
Qed.

End Cursor.

(** The full rebuild returns as soon as the fuel exceeds the cap, holds no
    more matches than the cap, and, when the expression runs with the global
    or the sticky flag, lists them sorted and without overlap. *)
Lemma updateOccurrences_returns `{Engine} fuel d w regEx :
  compile (regularExpression (rule w))
    (or_else (regularExpressionFlags (rule w)) "g") = Some regEx →
  Z.max 0 (cap (rule w)) < Z.of_nat fuel →
  ∃ w',
    updateOccurrences fuel d None w = Ret w'
    ∧ Z.of_nat (length (activeOccurrences w')) ≤ Z.max 0 (cap (rule w))
    ∧ length (decorationOptions w') = length (activeOccurrences w')
    ∧ (RegExp.usesLastIndex regEx = true →
       sortedNonOverlapping (activeOccurrences w') = true).
Proof.
  intros Hre Hfuel. unfold updateOccurrences, new_RegExp. cbn [default].
  rewrite Hre. cbn.
  destruct (LoopFacts.execLoop_capped regEx (TextDocument.getText d)
              (cap (rule w)) fuel 0 []) as (found & Hloop & Hlen);
    [cbn; lia|].
  rewrite Hloop. cbn. eexists. split; [reflexivity|]. cbn.
  split; [rewrite length_map; cbn in Hlen; lia|].
  split; [by rewrite length_imap|].
  intros Hcursor. apply (sorted_of_ordered d 0).
  by apply (execLoop_ordered regEx (TextDocument.getText d) Hcursor
              fuel _ 0%nat 0%nat [] found Hloop).
Qed.

End RebuildFacts.

(** ** Which faults throw *)

Module FaultFacts.

Import DecorationTypeWrapper.

(** The only exception the incremental update lets out is the one of the
    pattern compiler: its own consistency check never fires. *)
Lemma generateOccurrencesOnChange_throw `{Engine} fuel c w e :
  generateOccurrencesOnChange fuel c w = Throw e →
  e = SyntaxError (regularExpression (rule w)).
Proof.
  unfold generateOccurrencesOnChange, removeIntersectingOccurrences.
  destruct (search _ _ _ _ _) as [[ird w']|e'|] eqn:Hs; cbn;
    [|by apply SearchFacts.search_no_throw in Hs | discriminate].
  apply SearchFacts.search_result in Hs as (Hrange & Hrule & _).
  destruct (Z.ltb_spec 0 (IntersectingRangeData.removed ird)) as [Hpos|_];
    cbn [andb negb].
  - rewrite bool_decide_eq_true_2 by auto. cbn [negb].
    rewrite Hrule. unfold new_RegExp.
    destruct (compile _ _); cbn; [|congruence].
    destruct (execLoop _ _ _ _ _ _) eqn:Hl; cbn; try discriminate.
    by apply LoopFacts.execLoop_no_throw in Hl.
  - rewrite Hrule. unfold new_RegExp.
    destruct (compile _ _); cbn; [|congruence].
    destruct (execLoop _ _ _ _ _ _) eqn:Hl; cbn; try discriminate.
    by apply LoopFacts.execLoop_no_throw in Hl.
Qed.

(** C5 as stated fails: decorations applied through an editor that shows
    another document are answered with a thrown error. *)
Lemma apply_to_other_document_throws :
  applyDecorationsToEditor Sample.otherDoc
    (new Sample.fooBarFoo Sample.fooRule)
  = Throw (Error "CANNOT APPLY DECORATIONS TO DIFFERENT DOCUMENT").
Proof. reflexivity. Qed.

(** C5, amended.  A mismatch between the stored map and the stored array is
    written to the error log and both are stored and broadcast all the same;
    the consistency check of the incremental update never fires, the only
    exception it lets out being the pattern compiler's.  But applying
    decorations through an editor of another document throws, and so does
    adding a rule whose identifier is taken. *)
Theorem faults_logged_and_faults_thrown :
  (∀ (L : Type) (f : RuleFactory.t L) (m : gmap string Rule) (a : list Rule),
      size m ≠ length a →
      RuleFactory.errors (RuleFactory.updateRules m a f)
      = RuleFactory.errors f ++ ["rulesMap does not match rulesArray"]
      ∧ RuleFactory.rulesMap (RuleFactory.updateRules m a f) = m
      ∧ RuleFactory.rulesArray (RuleFactory.updateRules m a f) = a
      ∧ RuleFactory.enabledRulesCast (RuleFactory.updateRules m a f)
        = RuleFactory.enabledRulesCast f
          ++ [filter (fun r => enabled r = true) a])
  ∧ (∀ (E : Engine) fuel c w e,
        generateOccurrencesOnChange fuel c w = Throw e →
        e = SyntaxError (regularExpression (rule w)))
  ∧ (∀ activeEditor w,
        throws (applyDecorationsToEditor activeEditor w) = true
        ↔ TextDocument.fileName activeEditor
          ≠ TextDocument.fileName (document w))
  ∧ (∀ (L : Type) (f : RuleFactory.t L) (r : Rule),
        throws (RuleFactory.addRule r f) = true
        ↔ is_Some (RuleFactory.rulesMap f !! id r)).
Proof.
  split; [|repeat split].
  - intros L f m a Hne. apply Nat.eqb_neq in Hne.
    unfold RuleFactory.updateRules, RuleFactory.updateRulesLocally,
      RuleFactory.checkSizes, RuleFactory.pushRules.
    rewrite Hne. cbn.
    destruct (RuleFactory.grepcProvider f); repeat split; reflexivity.
  - intros E fuel c w e. apply generateOccurrencesOnChange_throw.
  - unfold applyDecorationsToEditor.
    destruct (String.eqb_spec (TextDocument.fileName activeEditor)
                (TextDocument.fileName (document w))); cbn;
      [discriminate | done].
  - unfold applyDecorationsToEditor.
    destruct (String.eqb_spec (TextDocument.fileName activeEditor)
                (TextDocument.fileName (document w))); cbn; done.
  - unfold RuleFactory.addRule, RuleFactory.getRulesMap.
    case_bool_decide; cbn; [done | discriminate].
  - unfold RuleFactory.addRule, RuleFactory.getRulesMap.
    case_bool_decide; cbn; done.
Qed.

End FaultFacts.

(** ** The candidate span *)

Module SpanFacts.

Import DecorationTypeWrapper.

Lemma isBefore_true p q :
  Position.isBefore p q = true
  ↔ (Position.line p < Position.line q)%nat
    ∨ (Position.line p = Position.line q
       ∧ (Position.character p < Position.character q)%nat).
Proof.
  unfold Position.isBefore.
  rewrite orb_true_iff, andb_true_iff, !Nat.ltb_lt, Nat.eqb_eq. tauto.
Qed.

(** A constructed range starts at or before its end. *)
Lemma new_ordered a b :
  Position.isBefore (Range.end_ (Range.new a b)) (Range.start (Range.new a b))
  = false.
Proof.
  unfold Range.new. destruct (Position.isBefore b a) eqn:Hba; cbn; [|done].
  apply isBefore_true in Hba. apply not_true_is_false.
  intros Hab%isBefore_true. lia.
Qed.

Lemma ordered_lines r :
  Position.isBefore (Range.end_ r) (Range.start r) = false →
  (Position.line (Range.start r) ≤ Position.line (Range.end_ r))%nat.
Proof.
  unfold Position.isBefore.
  destruct (Nat.ltb_spec (Position.line (Range.end_ r))
              (Position.line (Range.start r))); cbn; [done | lia].
Qed.

Lemma new_eq a b :
  Position.isBefore b a = false → Range.new a b = Range.mk a b.
Proof. unfold Range.new. by intros ->. Qed.

Lemma getFullLineRange_ordered r :
  (Position.line (Range.start r) ≤ Position.line (Range.end_ r))%nat →
  getFullLineRange r
  = Range.mk (Position.mk (Position.line (Range.start r)) 0)
      (Position.mk (Position.line (Range.end_ r) + 1) 0).
Proof.
  intros Hlines. unfold getFullLineRange, Position.with_. apply new_eq.
  apply not_true_is_false. intros Hb%isBefore_true. cbn in Hb. lia.
Qed.

Lemma paddedRange_whole_lines (l1 l2 : nat) :
  (l1 < l2)%nat →
  paddedRange (Range.mk (Position.mk l1 0) (Position.mk l2 0))
  = Range.mk (Position.mk l1 0) (Position.mk l2 1).
Proof.
  intros Hlines. unfold paddedRange, Position.translate. cbn.
  rewrite Z.add_0_r, Nat2Z.id. apply new_eq.
  apply not_true_is_false. intros Hb%isBefore_true. cbn in Hb. lia.
Qed.

(** C7 as stated fails: for the edit that replaces the blank of
    [hello world], one unit on each side would give columns 4 to 7 of line 0;
    the span the update searches with runs from the start of line 0 to the
    second column of line 1. *)
Lemma candidate_span_is_not_edit_plus_one :
  candidateSpan Sample.blankToDash
  ≠ specCandidateSpan Sample.helloWorld (cc_range Sample.blankToDash).
Proof. vm_compute. discriminate. Qed.

(** C7, amended.  The incremental update looks the store up with the edit's
    old range snapped to whole lines and then padded: the span starts at the
    first column of the range's first line, which the padding cannot move
    back, and ends one character into the line after the range's last line,
    whether or not the buffer reaches that far. *)
Theorem candidate_span_of_edit (a b : Position.t) (newText : list ascii)
  (fuel : nat) (w : DecorationTypeWrapper.t) :
  let oldRange := Range.new a b in
  let contentChange := mkChange oldRange newText in
  candidateSpan contentChange
  = Range.mk
      (Position.mk (Position.line (Range.start oldRange)) 0)
      (Position.mk (Position.line (Range.end_ oldRange) + 1) 1)
  ∧ removeIntersectingOccurrences fuel (getFullLineRange oldRange) w
    = search fuel (candidateSpan contentChange) w 0
        (Z.of_nat (length (activeOccurrences w)) - 1).
Proof.
  intros oldRange contentChange. split; [|reflexivity].
  pose proof (ordered_lines oldRange (new_ordered a b)) as Hlines.
  unfold candidateSpan. cbn [cc_range contentChange].
  rewrite getFullLineRange_ordered by exact Hlines.
  apply paddedRange_whole_lines. lia.
Qed.

End SpanFacts.

(** ** The manager *)

Module ManagerFacts.

Import DecorationTypeManager.

Section WithLocation.

Context {LocationState : Type} `{Countable LocationState}.

Implicit Types (m : DecorationTypeManager.t LocationState)
  (f : RuleFactory.t LocationState).

(** *** Jumping to an occurrence *)

(** C9.  The lookup behind [jumpToLine] yields the range stored for the rule
    at the ordinal when there is one, and then the jump reveals it in the
    active editor; for an unknown rule, for an ordinal below zero or beyond
    the rule's stored ranges, and for a missing request it yields nothing,
    and the jump leaves the manager as it was. *)
Theorem jumpToLine_lookup m (lr : LineRange) :
  (∀ ranges r,
      _ruleToActiveOccurrences m !! lr_ruleId lr = Some ranges →
      0 ≤ lr_index lr →
      ranges !! Z.to_nat (lr_index lr) = Some r →
      occurrenceAt (Some lr) m = Some r
      ∧ (∀ e, _activeEditor m = Some e →
              editorCalls (jumpToLine (Some lr) m)
              = editorCalls m ++ [RevealRange r]))
  ∧ (_ruleToActiveOccurrences m !! lr_ruleId lr = None →
     occurrenceAt (Some lr) m = None ∧ jumpToLine (Some lr) m = m)
  ∧ (∀ ranges,
        _ruleToActiveOccurrences m !! lr_ruleId lr = Some ranges →
        lr_index lr < 0 ∨ Z.of_nat (length ranges) ≤ lr_index lr →
        occurrenceAt (Some lr) m = None ∧ jumpToLine (Some lr) m = m)
  ∧ occurrenceAt None m = None ∧ jumpToLine None m = m.
Proof.
  split; [|split; [|split; [|done]]].
  - intros ranges r Hranges Hindex Hr.
    assert (occurrenceAt (Some lr) m = Some r) as Hat.
    { unfold occurrenceAt, at_. rewrite Hranges.
      destruct (Z.ltb_spec (lr_index lr) 0); [lia | done]. }
    split; [exact Hat|].
    intros e He. unfold jumpToLine, call. by rewrite Hat, He.
  - intros Hnone.
    assert (occurrenceAt (Some lr) m = None) as Hat
      by (unfold occurrenceAt; by rewrite Hnone).
    split; [exact Hat|]. unfold jumpToLine. by rewrite Hat.
  - intros ranges Hranges Hout.
    assert (occurrenceAt (Some lr) m = None) as Hat.
    { unfold occurrenceAt, at_. rewrite Hranges.
      destruct (Z.ltb_spec (lr_index lr) 0); [done|].
      apply lookup_ge_None. lia. }
    split; [exact Hat|]. unfold jumpToLine. by rewrite Hat.
Qed.

(** *** The same list of enabled rules twice *)

Lemma ruleChanged_refl (r : Rule) : ruleChanged r r = false.
Proof.
  unfold ruleChanged.
  rewrite !String.eqb_refl, Bool.eqb_reflx, Z.eqb_refl,
    bool_decide_eq_true_2 by reflexivity.
  reflexivity.
Qed.

(** The comparison does not read what a report writes into a rule. *)
Lemma ruleChanged_sameButReport (old a b : Rule) :
  sameButReport a b →
  id a = id b ∧ ruleChanged old a = ruleChanged old b.
Proof.
  unfold sameButReport, withReport. destruct a, b. cbn.
  intros [= -> -> -> -> -> -> -> -> -> -> -> -> -> -> -> -> -> -> -> -> ->
            -> -> -> ->].
  done.
Qed.

Lemma changeFrom_same (before rest rest' : list Rule) :
  Forall2 sameButReport rest rest' →
  changeFrom (length before) rest' (before ++ rest) = false.
Proof.
  intros Hsame. revert before.
  induction Hsame as [|a b rest rest' Hab _ IH]; intros before;
    cbn [changeFrom]; [done|].
  rewrite list_lookup_middle by done.
  destruct (ruleChanged_sameButReport a a b Hab) as [Hid Hch].
  rewrite <- Hid, String.eqb_refl, <- Hch, ruleChanged_refl. cbn.
  specialize (IH (before ++ [a])).
  rewrite length_app, Nat.add_1_r, <- app_assoc in IH. exact IH.
Qed.

Lemma isDecorationChangeInArray_same m location (rules rules' : list Rule) :
  _factoryToOldEnabledRules m !! location = Some rules →
  Forall2 sameButReport rules rules' →
  isDecorationChangeInArray rules' location m = false.
Proof.
  intros Hold Hsame. unfold isDecorationChangeInArray. rewrite Hold.
  rewrite (Forall2_length _ _ _ Hsame), Nat.eqb_refl. cbn.
  apply (changeFrom_same [] rules rules' Hsame).
Qed.

(** X23.  When the subscriber has returned for a list of enabled rules,
    handing it the same rules again, in the same order and with the same
    attributes (whatever was written into them as the report of the first
    round), finds no change: nothing is cleared, scanned or reported, and the
    only assignment is the remembered list itself. *)
Theorem same_rules_twice_no_update `{Engine} (fuel : nat)
  (rules rules' : list Rule)
  (st : DecorationTypeManager.t LocationState * RuleFactory.t LocationState)
  m1 f1 :
  onEnabledRules fuel rules st = Ret (m1, f1) →
  Forall2 sameButReport rules rules' →
  isDecorationChangeInArray rules' (RuleFactory.location f1) m1 = false
  ∧ onEnabledRules fuel rules' (m1, f1)
    = Ret (setOldEnabledRules (RuleFactory.location f1) rules' m1, f1)
  ∧ setOldEnabledRules (RuleFactory.location f1) rules m1 = m1.
Proof.
  intros Hfirst Hsame. destruct st as [m f].
  unfold onEnabledRules in Hfirst.
  destruct (if isDecorationChangeInArray rules (RuleFactory.location f) m
            then updateDecorations fuel rules (clearDecorationsByFactory f m, f)
            else Ret (m, f)) as [[m' f']| |]; cbn in Hfirst; try discriminate.
  injection Hfirst as <- <-.
  assert (_factoryToOldEnabledRules
            (setOldEnabledRules (RuleFactory.location f') rules m')
          !! RuleFactory.location f' = Some rules) as Hold
    by apply lookup_insert_eq.
  pose proof (isDecorationChangeInArray_same _ _ _ _ Hold Hsame) as Hno.
  split; [exact Hno|]. split.
  - unfold onEnabledRules at 1. rewrite Hno. reflexivity.
  - unfold setOldEnabledRules. cbn. by rewrite insert_insert_eq.
Qed.

(** *** One rule with a pattern that does not compile *)

Lemma lineAt_fuel d n : TextDocument.lineAt d n ≠ OutOfFuel.
Proof. unfold TextDocument.lineAt. by destruct (_ !! _). Qed.

Lemma mapM_lineAt_fuel d ns : mapM (TextDocument.lineAt d) ns ≠ OutOfFuel.
Proof.
  induction ns as [|n ns IH]; cbn; [done|].
  pose proof (lineAt_fuel d n).
  destruct (TextDocument.lineAt d n); cbn; try done.
  destruct (mapM (TextDocument.lineAt d) ns); cbn; done.
Qed.

Lemma toLineRangesFrom_fuel d ruleId index ranges :
  toLineRangesFrom d ruleId index ranges ≠ OutOfFuel.
Proof.
  revert index. induction ranges as [|r ranges IH]; intros index; cbn; [done|].
  unfold toLineRange.
  pose proof (lineAt_fuel d (Position.line (Range.start r))).
  destruct (TextDocument.lineAt d _); cbn; try done.
  pose proof (mapM_lineAt_fuel d
                (seq (Position.line (Range.start r))
                   (S (Position.line (Range.end_ r))
                    - Position.line (Range.start r)))).
  destruct (mapM _ _); cbn; try done.
  specialize (IH (S index)).
  destruct (toLineRangesFrom d ruleId (S index) ranges); cbn; done.
Qed.

Lemma toLineRanges_fuel e ruleId ranges :
  toLineRanges e ruleId ranges ≠ OutOfFuel.
Proof. destruct e; cbn; [apply toLineRangesFrom_fuel | done]. Qed.

Section WithEngine.

Context `{Engine}.

(** The [try] block and its [catch] together always end in one report for the
    rule, as soon as the fuel exceeds the rule's cap; for a pattern that does
    not compile the report is the empty one and the manager is untouched. *)
Lemma scanRule_reports fuel activeEditor rule m f :
  Z.max 0 (cap rule) < Z.of_nat fuel →
  ∃ m' ranges occurrences,
    try_catch (scanRule fuel activeEditor rule m f)
      (fun _ => Ret (m, RuleFactory.pushOccurrences rule [] 0 f))
    = Ret (m', RuleFactory.pushOccurrences rule ranges occurrences f)
    ∧ (patternInvalid rule → ranges = [] ∧ occurrences = 0 ∧ m' = m).
Proof.
  intros Hfuel. unfold scanRule, new_RegExp, patternInvalid.
  destruct (compile _ _) as [regEx|]; cbn; [|by eexists _, _, _].
  destruct (LoopFacts.execLoop_capped regEx
              (TextDocument.getText (editorDocument activeEditor))
              (cap rule) fuel 0 []) as (found & -> & _); [cbn; lia|].
  cbn.
  match goal with
  | |- context [toLineRanges ?e ?i ?r] =>
      pose proof (toLineRanges_fuel e i r) as Hlr;
      destruct (toLineRanges e i r) as [lineRanges| |]; cbn; [| |done]
  end.
  - eexists _, _, _. split; [reflexivity | intros [=]].
  - eexists _, _, _. split; [reflexivity | intros [=]].
Qed.

(** The loop body for a rule whose filters compile. *)
Lemma decorateRule_reports fuel activeEditor rule m f :
  filtersCompile rule →
  Z.max 0 (cap rule) < Z.of_nat fuel →
  ∃ m' ranges occurrences,
    decorateRule fuel activeEditor rule (m, f)
    = Ret (m', RuleFactory.pushOccurrences rule ranges occurrences f)
    ∧ (patternInvalid rule → ranges = [] ∧ occurrences = 0 ∧ m' = m).
Proof.
  intros [Hexcl Hincl] Hfuel. unfold decorateRule, new_RegExp.
  assert (∃ excluded : bool,
             (if String.eqb (excludedFiles rule) "" then Ret false
              else match compile (excludedFiles rule) "" with
                   | Some re => Ret re
                   | None => Throw (SyntaxError (excludedFiles rule))
                   end ≫= λ exclude,
                     Ret (RegExp.test exclude
                            (chars (TextDocument.fileName
                                      (editorDocument activeEditor)))))
             = Ret excluded) as [excluded ->].
  { destruct (String.eqb_spec (excludedFiles rule) ""); [eauto|].
    destruct Hexcl as [|[re ->]]; [done | cbn; eauto]. }
  cbn. destruct excluded; [by eexists _, _, _|].
  assert (∃ notIncluded : bool,
             (if String.eqb (includedFiles rule) "" then Ret false
              else match compile (includedFiles rule) "" with
                   | Some re => Ret re
                   | None => Throw (SyntaxError (includedFiles rule))
                   end ≫= λ include,
                     Ret (negb (RegExp.test include
                                  (chars (TextDocument.fileName
                                            (editorDocument activeEditor))))))
             = Ret notIncluded) as [notIncluded ->].
  { destruct (String.eqb_spec (includedFiles rule) ""); [eauto|].
    destruct Hincl as [|[re ->]]; [done | cbn; eauto]. }
  cbn. destruct notIncluded; [by eexists _, _, _|].
  destruct (String.eqb (regularExpression rule) ""); [by eexists _, _, _|].
  by apply scanRule_reports.
Qed.

(** A rule whose pattern does not compile is reported empty whatever the
    fuel, and the loop goes on with the rules after it. *)
Lemma forEachRule_invalid_pattern fuel activeEditor rule rest m f :
  filtersCompile rule →
  patternInvalid rule →
  forEachRule fuel activeEditor (rule :: rest) (m, f)
  = forEachRule fuel activeEditor rest
      (m, RuleFactory.pushOccurrences rule [] 0 f).
Proof.
  intros [Hexcl Hincl] Hbad. cbn [forEachRule].
  unfold decorateRule, new_RegExp.
  destruct (String.eqb_spec (excludedFiles rule) "") as [|Hne]; cbn.
  2: { destruct Hexcl as [|[re ->]]; [done|]. cbn.
       destruct (RegExp.test re _); [done|].
       destruct (String.eqb_spec (includedFiles rule) "") as [|Hne']; cbn.
       2: { destruct Hincl as [|[re' ->]]; [done|]. cbn.
            destruct (RegExp.test re' _); cbn; [|done].
            destruct (String.eqb (regularExpression rule) ""); [done|].
            unfold scanRule, new_RegExp. by rewrite Hbad. }
       destruct (String.eqb (regularExpression rule) ""); [done|].
       unfold scanRule, new_RegExp. by rewrite Hbad. }
  destruct (String.eqb_spec (includedFiles rule) "") as [|Hne']; cbn.
  2: { destruct Hincl as [|[re' ->]]; [done|]. cbn.
       destruct (RegExp.test re' _); cbn; [|done].
       destruct (String.eqb (regularExpression rule) ""); [done|].
       unfold scanRule, new_RegExp. by rewrite Hbad. }
  destruct (String.eqb (regularExpression rule) ""); [done|].
  unfold scanRule, new_RegExp. by rewrite Hbad.
Qed.

(** The loop over the rules: one report per rule, in the order of the list. *)
Lemma forEachRule_reports fuel activeEditor (rules : list Rule) m f :
  Forall filtersCompile rules →
  Forall (fun r => Z.max 0 (cap r) < Z.of_nat fuel) rules →
  ∃ m' reports,
    forEachRule fuel activeEditor rules (m, f) = Ret (m', reported f reports)
    ∧ map rep_rule reports = rules
    ∧ Forall (fun rep =>
                patternInvalid (rep_rule rep) →
                rep_ranges rep = [] ∧ rep_occurrences rep = 0)
        reports.
Proof.
  intros Hfilters. revert m f.
  induction Hfilters as [|rule rules Hrule _ IH]; intros m f Hfuel;
    cbn [forEachRule].
  - by exists m, [].
  - apply Forall_cons in Hfuel as [Hfuel1 Hfuel].
    destruct (decorateRule_reports fuel activeEditor rule m f Hrule Hfuel1)
      as (m1 & ranges & occurrences & -> & Hinvalid).
    cbn.
    destruct (IH m1 (RuleFactory.pushOccurrences rule ranges occurrences f)
                Hfuel) as (m' & reports & -> & Hrules & Hreports).
    exists m', (mkReport rule ranges occurrences :: reports).
    split; [reflexivity|]. split; [cbn; by rewrite Hrules|].
    constructor; [|exact Hreports].
    cbn. intros Hbad. by destruct (Hinvalid Hbad) as (-> & -> & _).
Qed.

Lemma reported_empty f (rules : list Rule) :
  foldl (fun f rule => RuleFactory.pushOccurrences rule [] 0 f) f rules
  = reported f (map (fun rule => mkReport rule [] 0) rules).
Proof. revert f. induction rules as [|r rules IH]; intros f; cbn; auto. Qed.

(** X24.  In an update that runs (the factory is not locked) over rules whose
    filters compile, with fuel beyond every cap, no exception escapes and
    every rule of the list is reported once, in the order of the list; a rule
    whose pattern does not compile is reported with no range and zero
    occurrences. *)
Theorem invalid_pattern_reported_empty (fuel : nat) (rules : list Rule) m f :
  RuleFactory.locked f = false →
  Forall filtersCompile rules →
  Forall (fun r => Z.max 0 (cap r) < Z.of_nat fuel) rules →
  ∃ m' reports,
    updateDecorations fuel rules (m, f) = Ret (m', reported f reports)
    ∧ map rep_rule reports = rules
    ∧ Forall (fun rep =>
                patternInvalid (rep_rule rep) →
                rep_ranges rep = [] ∧ rep_occurrences rep = 0)
        reports.
Proof.
  intros Hlocked Hfilters Hfuel. unfold updateDecorations. rewrite Hlocked.
  destruct (_activeEditor m) as [activeEditor|] eqn:Heditor.
  - by apply forEachRule_reports.
  - eexists _, (map (fun rule => mkReport rule [] 0) rules).
    split; [by rewrite reported_empty|].
    split; [by rewrite map_map, map_id|].
    apply Forall_forall. intros rep [r [-> _]]%list_elem_of_fmap. done.
Qed.

End WithEngine.

End WithLocation.

End ManagerFacts.

(** ** The manager and the wrapper at concrete inputs *)

Module Checks.

Import DecorationTypeWrapper DecorationTypeManager Sample.

(** C6, at the failing input: a rule whose exclusion filter is ["("] makes the
    whole update end in the compiler's exception, before anything is reported
    for it or for the rule after it; the same text as a pattern is caught and
    both rules are reported. *)
Theorem malformed_filter_escapes_update :
  updateDecorations 10 [badFilterRule; fooRule] (manager fooBarFoo, factory)
  = Throw (SyntaxError "(")
  ∧ ('(_, f) ← updateDecorations 10 [badRule; fooRule]
                 (manager fooBarFoo, factory);
     Ret (map (fun msg => (msg_id msg, msg_occurrences msg))
            (RuleFactory.posted f)))
    = Ret [("r-bad", 0); ("r-foo", 2)].
Proof. split; vm_compute; reflexivity. Qed.

(** C10, at the failing input.  The rule has the empty pattern, which matches
    the empty text without moving the cursor, and a cap of two.  The full
    rebuild stops at the cap.  The incremental update that follows removes the
    two stored matches, so its guard [decorationOptions.length < cap] holds
    and keeps holding, the new matches being collected elsewhere: no amount of
    fuel lets it return. *)
Theorem incremental_scan_never_returns (fuel : nat) :
  rebuildThenEdit fuel emptyDoc emptyRule typeX = OutOfFuel.
Proof.
  destruct fuel as [|[|[|fuel]]]; try (vm_compute; reflexivity).
  unfold rebuildThenEdit.
  set (rebuilt := updateOccurrences _ _ _ _). vm_compute in rebuilt.
  subst rebuilt.
  match goal with |- Ret ?x ≫= ?k = _ => change (k x = OutOfFuel) end.
  cbv beta. unfold generateOccurrencesOnChange.
  set (removed := removeIntersectingOccurrences _ _ _).
  vm_compute in removed. subst removed.
  match goal with |- Ret ?x ≫= ?k = _ => change (k x = OutOfFuel) end.
  cbv beta iota.
  set (check := andb _ _). vm_compute in check. subst check. cbv iota.
  set (regEx := new_RegExp _ _). vm_compute in regEx. subst regEx.
  match goal with |- Ret ?x ≫= ?k = _ => change (k x = OutOfFuel) end.
  cbv beta.
  erewrite LoopFacts.execLoop_stuck; [reflexivity | |].
  - intros n. vm_compute. reflexivity.
  - vm_compute. reflexivity.
Qed.

(** The full rebuild of the same rule over the same text does return. *)
Example rebuild_of_empty_pattern_returns :
  occurrencesOf (rebuildAfterEdit 3 emptyDoc emptyRule typeX)
  = Ret [span 0 0 0 0; span 0 0 0 0].
Proof. vm_compute; reflexivity. Qed.

(** While the factory is locked the update is skipped as a whole: nothing is
    scanned and nothing is reported. *)
Example locked_factory_skips_update :
  updateDecorations 10 [badRule; fooRule] (manager fooBarFoo, lockedFactory)
  = Ret (manager fooBarFoo, lockedFactory).
Proof. reflexivity. Qed.

(** X24 at a list that holds a rule with the pattern ["("]. *)
Lemma invalid_pattern_witness :
  patternInvalid badRule
  ∧ ∃ m' reports,
      updateDecorations 1001 [badRule; fooRule] (manager fooBarFoo, factory)
      = Ret (m', reported factory reports)
      ∧ map rep_rule reports = [badRule; fooRule]
      ∧ Forall (fun rep =>
                  patternInvalid (rep_rule rep) →
                  rep_ranges rep = [] ∧ rep_occurrences rep = 0)
          reports.
Proof.
  split; [reflexivity|].
  apply (ManagerFacts.invalid_pattern_reported_empty 1001 [badRule; fooRule]
           (manager fooBarFoo) factory).
  - reflexivity.
  - repeat constructor.
  - repeat constructor; vm_compute; reflexivity.
Defined.

(** X23 at the list that holds the rule for [foo]. *)
Lemma same_rules_twice_witness :
  match onEnabledRules 10 [fooRule] (manager fooBarFoo, factory) with
  | Ret (m1, f1) =>
      isDecorationChangeInArray [fooRule] (RuleFactory.location f1) m1 = false
      ∧ onEnabledRules 10 [fooRule] (m1, f1)
        = Ret (setOldEnabledRules (RuleFactory.location f1) [fooRule] m1, f1)
      ∧ setOldEnabledRules (RuleFactory.location f1) [fooRule] m1 = m1
  | _ => False
  end.
Proof.
  destruct (onEnabledRules 10 [fooRule] (manager fooBarFoo, factory))
    as [[m1 f1]| |] eqn:Hfirst.
  - apply (ManagerFacts.same_rules_twice_no_update 10 [fooRule] [fooRule]
             (manager fooBarFoo, factory) m1 f1 Hfirst).
    repeat constructor.
  - vm_compute in Hfirst. discriminate.
  - vm_compute in Hfirst. discriminate.
Defined.

(** C9 at a store of two ranges. *)
Example jump_examples :
  occurrenceAt (jumpTo "r-foo" 1)
    (managerWith "r-foo" [span 0 0 0 3; span 0 8 0 11])
  = Some (span 0 8 0 11)
  ∧ occurrenceAt (jumpTo "r-foo" 2)
      (managerWith "r-foo" [span 0 0 0 3; span 0 8 0 11]) = None
  ∧ occurrenceAt (jumpTo "r-foo" (-1))
      (managerWith "r-foo" [span 0 0 0 3; span 0 8 0 11]) = None
  ∧ occurrenceAt (jumpTo "r-other" 0)
      (managerWith "r-foo" [span 0 0 0 3; span 0 8 0 11]) = None.
Proof. repeat split; vm_compute; reflexivity. Qed.

End Checks.

(** * Further properties of the sources *)

(** ** The wrapper's helpers *)

Module WrapperExtras.

Import DecorationTypeWrapper.

Lemma isAfter_false p q : Position.isAfter p q = false ↔ posLe p q.
Proof.
  unfold Position.isAfter. rewrite negb_false_iff.
  apply RebuildFacts.isBeforeOrEqual_true.
Qed.

Lemma containsPosition_true r p :
  Range.containsPosition r p = true
  ↔ posLe (Range.start r) p ∧ posLe p (Range.end_ r).
Proof.
  unfold Range.containsPosition.
  rewrite negb_true_iff, orb_false_iff, !RebuildFacts.isBefore_false. tauto.
Qed.

Lemma new_ends a b :
  posLe a b → Range.new a b = Range.mk a b.
Proof. intros Hab. apply SpanFacts.new_eq. by apply RebuildFacts.isBefore_false. Qed.

Lemma new_posLe a b :
  posLe (Range.start (Range.new a b)) (Range.end_ (Range.new a b)).
Proof. apply RebuildFacts.isBefore_false, SpanFacts.new_ordered. Qed.

(** X1.  Snapping a range to whole lines and padding it only ever widen it:
    the range of whole lines, the padded range and the candidate span of an
    edit all contain the range they were made from. *)
Theorem widened_ranges_contain_the_range (a b : Position.t)
  (newText : list ascii) :
  let r := Range.new a b in
  Range.contains (getFullLineRange r) r = true
  ∧ Range.contains (paddedRange r) r = true
  ∧ Range.contains (candidateSpan (mkChange r newText)) r = true.
Proof.
  intros r. pose proof (new_posLe a b) as Hr. fold r in Hr.
  pose proof (SpanFacts.ordered_lines r (SpanFacts.new_ordered a b)) as Hl.
  clearbody r.
  assert (candidateSpan (mkChange r newText)
          = Range.mk (Position.mk (Position.line (Range.start r)) 0)
              (Position.mk (Position.line (Range.end_ r) + 1) 1)) as Hspan.
  { unfold candidateSpan. cbn [cc_range].
    rewrite SpanFacts.getFullLineRange_ordered by exact Hl.
    apply SpanFacts.paddedRange_whole_lines. lia. }
  destruct r as [[sl sc] [el ec]]. unfold posLe in Hr. cbn in Hr, Hl.
  split; [|split].
  - rewrite SpanFacts.getFullLineRange_ordered by exact Hl.
    unfold Range.contains. rewrite andb_true_iff, !containsPosition_true.
    unfold posLe. cbn. lia.
  - unfold paddedRange, Position.translate.
    cbn [Range.start Range.end_ Position.line Position.character].
    rewrite new_ends.
    + unfold Range.contains. rewrite andb_true_iff, !containsPosition_true.
      unfold posLe. destruct (Nat.ltb_spec 0 sc); cbn; lia.
    + unfold posLe. destruct (Nat.ltb_spec 0 sc); cbn; lia.
  - rewrite Hspan.
    unfold Range.contains. rewrite andb_true_iff, !containsPosition_true.
    unfold posLe. cbn. lia.
Qed.

Lemma insertEach_inside {A} (i : nat) (items : list A) :
  ∀ k arr, (i + k ≤ length arr)%nat →
  insertEach i k items arr = take (i + k) arr ++ items ++ drop (i + k) arr.
Proof.
  induction items as [|x items IH]; intros k arr Hk; cbn [insertEach].
  - cbn [app]. by rewrite take_drop.
  - unfold splice. rewrite Nat.min_l, Nat.add_0_r by exact Hk.
    rewrite IH.
    + rewrite !(app_assoc (take (i + k) arr) [x]).
      replace (i + S k)%nat with (length (take (i + k) arr ++ [x]))
        by (rewrite length_app, length_take; cbn; lia).
      rewrite take_app_length, drop_app_length.
      by rewrite <- !app_assoc.
    + rewrite !length_app, length_take, length_drop. cbn. lia.
Qed.

Lemma insertEach_beyond {A} (i : nat) (items : list A) :
  ∀ k arr, (length arr ≤ i + k)%nat →
  insertEach i k items arr = arr ++ items.
Proof.
  induction items as [|x items IH]; intros k arr Hk; cbn [insertEach].
  - by rewrite app_nil_r.
  - unfold splice. rewrite Nat.min_r, Nat.add_0_r by exact Hk.
    rewrite firstn_all, drop_all, app_nil_r.
    rewrite IH; [by rewrite <- app_assoc|].
    rewrite length_app. cbn. lia.
Qed.

Lemma insertEach_splice {A} (insertIndex : nat) (items arr : list A) :
  insertEach insertIndex 0 items arr = splice insertIndex 0 items arr.
Proof.
  unfold splice. rewrite Nat.add_0_r.
  destruct (Nat.le_gt_cases insertIndex (length arr)) as [Hin|Hout].
  - rewrite insertEach_inside by lia.
    by rewrite Nat.add_0_r, Nat.min_l.
  - rewrite insertEach_beyond by lia.
    by rewrite Nat.min_r, firstn_all, drop_all, app_nil_r by lia.
Qed.

Lemma length_splice_insert {A} (i : nat) (items arr : list A) :
  length (splice i 0 items arr) = (length arr + length items)%nat.
Proof.
  unfold splice. rewrite !length_app, length_take, length_drop. lia.
Qed.

Lemma map_splice {A B} (g : A → B) (i n : nat) (items arr : list A) :
  map g (splice i n items arr) = splice i n (map g items) (map g arr).
Proof.
  unfold splice.
  by rewrite !map_app, firstn_map, skipn_map, length_map.
Qed.

(** X2.  Splicing the new items in one by one, as the two [forEach] loops of
    [generateOccurrencesOnChange] do, is one splice of all of them: they
    land, in order, at the insertion index, and at the end of the array when
    the index lies beyond it. *)
Theorem insertEach_is_one_splice {A} (insertIndex : nat) (items arr : list A) :
  insertEach insertIndex 0 items arr
  = take insertIndex arr ++ items ++ drop insertIndex arr
  ∧ length (insertEach insertIndex 0 items arr)
    = (length arr + length items)%nat.
Proof.
  rewrite insertEach_splice. split; [|apply length_splice_insert].
  unfold splice. rewrite Nat.add_0_r.
  destruct (Nat.le_gt_cases insertIndex (length arr)) as [Hin|Hout].
  - by rewrite Nat.min_l.
  - by rewrite Nat.min_r, !firstn_all2, !drop_ge by lia.
Qed.

(** The decorations made from a list of ranges decorate these ranges. *)
Lemma map_range_imap (f : nat → Range.t → DecorationOptions)
  (ranges : list Range.t) :
  (∀ i r, range (f i r) = r) → map range (imap f ranges) = ranges.
Proof.
  revert f. induction ranges as [|x ranges IH]; intros f Hf; [done|].
  rewrite imap_cons. cbn. rewrite Hf. f_equal. apply IH.
  intros i r. apply Hf.
Qed.

Section Rebuild.

Context `{Engine}.


End Rebuild.

End WrapperExtras.

(** ** What the search removes *)

Module SearchExtras.

Import DecorationTypeWrapper IntersectingRangeData.

Lemma Max_posLe a b c :
  posLe (Position.Max a b) c ↔ posLe a c ∧ posLe b c.
Proof.
  unfold Position.Max.
  destruct (Position.isAfter b a) eqn:Hab.
  - assert (¬ posLe b a) as Hn
      by (intros Hle%WrapperExtras.isAfter_false; congruence).
    unfold posLe in *. lia.
  - apply WrapperExtras.isAfter_false in Hab. unfold posLe in *. lia.
Qed.

Lemma Min_posLe a b c :
  posLe c (Position.Min a b) ↔ posLe c a ∧ posLe c b.
Proof.
  unfold Position.Min.
  destruct (Position.isBefore b a) eqn:Hab.
  - assert (¬ posLe a b) as Hn
      by (intros Hle%RebuildFacts.isBefore_false; congruence).
    unfold posLe in *. lia.
  - apply RebuildFacts.isBefore_false in Hab. unfold posLe in *. lia.
Qed.

(** Two ranges intersect when each starts at or before the end of the other
    (and of itself). *)
Lemma intersection_is_Some r o :
  is_Some (Range.intersection r o)
  ↔ posLe (Range.start o) (Range.end_ o)
    ∧ posLe (Range.start o) (Range.end_ r)
    ∧ posLe (Range.start r) (Range.end_ o)
    ∧ posLe (Range.start r) (Range.end_ r).
Proof.
  unfold Range.intersection.
  destruct (Position.isAfter _ _) eqn:Hafter.
  - split; [by intros [? [=]]|]. intros Hle.
    assert (Position.isAfter
              (Position.Max (Range.start o) (Range.start r))
              (Position.Min (Range.end_ o) (Range.end_ r)) = false) as Hf.
    { apply WrapperExtras.isAfter_false, Max_posLe.
      split; apply Min_posLe; tauto. }
    congruence.
  - apply WrapperExtras.isAfter_false, Max_posLe in Hafter as [H1 H2].
    apply Min_posLe in H1, H2. split; [tauto | eauto].
Qed.

Lemma intersection_comm r o :
  is_Some (Range.intersection r o) ↔ is_Some (Range.intersection o r).
Proof. rewrite !intersection_is_Some. tauto. Qed.

Lemma intersection_None r o :
  Range.intersection r o = None ↔ ¬ is_Some (Range.intersection r o).
Proof.
  destruct (Range.intersection r o) as [x|].
  - split; [done|]. intros Hn. destruct Hn. eauto.
  - split; [|done]. intros _ [? [=]].
Qed.

(** The walk to the left stops below the first index [lo] from which on
    everything up to the probe intersects; the range just below [lo], if
    there is one, does not. *)
Lemma goLeft_spec ccr occ k inter l' i' :
  goLeft ccr occ k inter = Ret (l', i') →
  ∃ lo : nat,
    l' = Z.of_nat lo - 1 ∧ (lo ≤ k)%nat
    ∧ (∀ j o, (lo ≤ j < k)%nat → occ !! j = Some o →
              is_Some (Range.intersection ccr o))
    ∧ (∀ j o, S j = lo → occ !! j = Some o →
              Range.intersection ccr o = None).
Proof.
  revert inter. induction k as [|k IH]; intros inter; cbn [goLeft].
  - intros [= <- <-]. exists 0%nat.
    split; [lia|]. split; [lia|]. split; [intros; lia | done].
  - destruct (occ !! k) as [o|] eqn:Ho; [|done].
    destruct (Range.intersection ccr o) as [ni|] eqn:Hi.
    + intros (lo & -> & Hlo & Hrun & Hstop)%IH.
      exists lo. split; [lia|]. split; [lia|]. split; [|exact Hstop].
      intros j o' Hj Ho'. destruct (decide (j = k)) as [->|].
      * rewrite Ho in Ho'. injection Ho' as <-. rewrite Hi. eauto.
      * apply (Hrun j); [lia | done].
    + intros [= <- <-]. exists (S k).
      split; [lia|]. split; [lia|]. split; [intros; lia|].
      intros j o' [= ->] Ho'. rewrite Ho in Ho'. by injection Ho' as <-.
Qed.

(** The walk to the right passes the [n] ranges that intersect and stops at
    the first that does not. *)
Lemma goRight_spec ccr rest right inter r' i' :
  goRight ccr rest right inter = (r', i') →
  ∃ n : nat,
    r' = right + Z.of_nat n ∧ (n ≤ length rest)%nat
    ∧ (∀ j o, (j < n)%nat → rest !! j = Some o →
              is_Some (Range.intersection ccr o))
    ∧ (∀ o, rest !! n = Some o → Range.intersection ccr o = None).
Proof.
  revert right inter. induction rest as [|o rest IH]; intros right inter;
    cbn [goRight].
  - intros [= <- <-]. exists 0%nat.
    split; [lia|]. split; [cbn; lia|]. split; [intros; lia | done].
  - destruct (Range.intersection ccr o) as [ni|] eqn:Hi.
    + intros (n & -> & Hn & Hrun & Hstop)%IH.
      exists (S n). split; [lia|]. split; [cbn; lia|]. split; [|exact Hstop].
      intros [|j] o' Hj; cbn.
      * intros [= <-]. rewrite Hi. eauto.
      * apply Hrun. lia.
    + intros [= <- <-]. exists 0%nat.
      split; [lia|]. split; [cbn; lia|]. split; [intros; lia|].
      cbn. by intros o' [= <-].
Qed.

(** What a search returns: either nothing was found and the store is as it
    was, or a block [lo, hi) of ranges was cut out of it. *)
Lemma search_shape fuel ccr w l r ird w' :
  search fuel ccr w l r = Ret (ird, w') →
  (range ird = None ∧ removed ird = 0 ∧ w' = w)
  ∨ ∃ lo hi : nat,
      is_Some (range ird)
      ∧ insertIndex ird = Z.of_nat lo
      ∧ removed ird = Z.of_nat hi - Z.of_nat lo
      ∧ (lo < hi ≤ length (activeOccurrences w))%nat
      ∧ activeOccurrences w'
        = take lo (activeOccurrences w) ++ drop hi (activeOccurrences w)
      ∧ decorationOptions w' = splice lo (hi - lo) [] (decorationOptions w)
      ∧ rule w' = rule w ∧ document w' = document w
      ∧ (∀ j o, (lo ≤ j < hi)%nat → activeOccurrences w !! j = Some o →
                is_Some (Range.intersection ccr o))
      ∧ (∀ o, activeOccurrences w !! hi = Some o →
              Range.intersection ccr o = None)
      ∧ (∀ j o, S j = lo → activeOccurrences w !! j = Some o →
                Range.intersection ccr o = None).
Proof.
  revert l r. induction fuel as [|fuel IH]; intros l r; cbn [search];
    [done|].
  destruct (l <=? r); [|intros [= <- <-]; by left].
  set (middle := (l + r) `div` 2).
  destruct (at_ (activeOccurrences w) middle) as [mid|] eqn:Hmid;
    [|intros [= <- <-]; by left].
  destruct (Range.intersection mid ccr) as [x|] eqn:Hx.
  2: { destruct (Position.isBeforeOrEqual _ _); apply IH. }
  pose proof (SearchFacts.at_Some _ _ _ Hmid) as [Hm0 Hmlt].
  assert (activeOccurrences w !! Z.to_nat middle = Some mid) as Hmid'.
  { unfold at_ in Hmid. destruct (Z.ltb_spec middle 0); [lia | done]. }
  destruct (goLeft ccr (activeOccurrences w) (Z.to_nat middle)
              (Range.union ccr mid)) as [[l' i']| |] eqn:Hleft; cbn;
    try done.
  destruct (goRight ccr (drop (Z.to_nat (middle + 1)) (activeOccurrences w))
              (middle + 1) i') as [r' i''] eqn:Hright.
  apply goLeft_spec in Hleft as (lo & -> & Hlo & Hrunl & Hstopl).
  apply goRight_spec in Hright as (n & -> & Hn & Hrunr & Hstopr).
  rewrite length_drop in Hn.
  intros [= <- <-]. right.
  exists lo, (Z.to_nat middle + 1 + n)%nat. cbn.
  replace (Z.to_nat (Z.of_nat lo - 1 + 1)) with lo by lia.
  replace (Z.to_nat (middle + 1 + Z.of_nat n - (Z.of_nat lo - 1 + 1)))
    with (Z.to_nat middle + 1 + n - lo)%nat by lia.
  split; [eauto|]. split; [lia|]. split; [lia|]. split; [lia|].
  split.
  { unfold splice. rewrite Nat.min_l by lia. cbn [app]. do 2 f_equal. lia. }
  split; [done|]. split; [done|]. split; [done|].
  split; [|split; [|exact Hstopl]].
  - intros j o Hj Ho.
    destruct (Nat.lt_trichotomy j (Z.to_nat middle)) as [Hlt|[->|Hgt]].
    + apply (Hrunl j); [lia | done].
    + rewrite Hmid' in Ho. injection Ho as <-.
      apply intersection_comm. rewrite Hx. eauto.
    + apply (Hrunr (j - (Z.to_nat middle + 1))%nat); [lia|].
      rewrite lookup_drop. rewrite <- Ho. f_equal. lia.
  - intros o Ho. apply Hstopr. rewrite lookup_drop, <- Ho. f_equal. lia.
Qed.

(** Where a search that finds nothing puts the insertion index. *)
Lemma search_None_index fuel ccr w l r ird w' :
  search fuel ccr w l r = Ret (ird, w') →
  range ird = None →
  l ≤ r + 1 →
  l + 1 ≤ insertIndex ird ≤ r + 2.
Proof.
  revert l r. induction fuel as [|fuel IH]; intros l r; cbn [search];
    [done|].
  destruct (Z.leb_spec l r) as [Hlr|Hlr]; [|intros [= <- <-]; cbn; lia].
  assert (l ≤ (l + r) `div` 2 ≤ r)
    by (split; [apply Z.div_le_lower_bound | apply Z.div_le_upper_bound]; lia).
  destruct (at_ (activeOccurrences w) ((l + r) `div` 2)) as [mid|];
    [|intros [= <- <-]; cbn; lia].
  destruct (Range.intersection mid ccr).
  - destruct (goLeft _ _ _ _) as [[l' i']| |]; cbn; try done.
    destruct (goRight _ _ _ _). by intros [= <- <-].
  - destruct (Position.isBeforeOrEqual _ _); intros Hs Hnone Hle.
    + specialize (IH _ _ Hs Hnone). lia.
    + specialize (IH _ _ Hs Hnone). lia.
Qed.

(** X4.  The binary search of [removeIntersectingOccurrences] returns once
    the fuel exceeds the number of stored ranges: it neither throws nor runs
    on.  It leaves the rule and the document alone, and the store is shorter
    by exactly the number it reports as removed. *)
Theorem removeIntersectingOccurrences_returns (fuel : nat) (r : Range.t)
  (w : DecorationTypeWrapper.t) :
  (length (activeOccurrences w) < fuel)%nat →
  ∃ ird w',
    removeIntersectingOccurrences fuel r w = Ret (ird, w')
    ∧ rule w' = rule w ∧ document w' = document w
    ∧ 0 ≤ removed ird
    ∧ Z.of_nat (length (activeOccurrences w'))
      = Z.of_nat (length (activeOccurrences w)) - removed ird.
Proof.
  intros Hfuel. unfold removeIntersectingOccurrences.
  destruct (SearchFacts.search_returns fuel (paddedRange r) w 0
              (Z.of_nat (length (activeOccurrences w)) - 1))
    as [[ird w'] Hs]; [lia|].
  exists ird, w'. split; [exact Hs|].
  destruct (search_shape _ _ _ _ _ _ _ Hs)
    as [(_ & -> & ->)|(lo & hi & _ & _ & -> & Hb & -> & _ & -> & -> & _)].
  - repeat split; lia.
  - split; [done|]. split; [done|]. split; [lia|].
    rewrite length_app, length_take, length_drop. lia.
Qed.

(** X5.  When no stored range intersects the padded range, the search removes
    nothing: it reports no range and zero removed, hands back an insertion
    index between 1 and the length of the store plus 1, and leaves the store
    exactly as it was. *)
Theorem no_intersection_removes_nothing (fuel : nat) (r : Range.t)
  (w : DecorationTypeWrapper.t) :
  (length (activeOccurrences w) < fuel)%nat →
  (∀ o, o ∈ activeOccurrences w →
        Range.intersection (paddedRange r) o = None) →
  ∃ index,
    removeIntersectingOccurrences fuel r w
    = Ret (IntersectingRangeData.mk 0 None index, w)
    ∧ 1 ≤ index ≤ Z.of_nat (length (activeOccurrences w)) + 1.
Proof.
  intros Hfuel Hnone. unfold removeIntersectingOccurrences.
  destruct (SearchFacts.search_returns fuel (paddedRange r) w 0
              (Z.of_nat (length (activeOccurrences w)) - 1))
    as [[ird w'] Hs]; [lia|].
  destruct (search_shape _ _ _ _ _ _ _ Hs)
    as [(Hrange & Hrem & ->)|(lo & hi & _ & _ & _ & Hb & _ & _ & _ & _ & Hrun & _)].
  - pose proof (search_None_index _ _ _ _ _ _ _ Hs Hrange) as Hidx.
    destruct ird as [rem rng idx]. cbn in *. subst.
    exists idx. split; [exact Hs | lia].
  - destruct (lookup_lt_is_Some_2 (activeOccurrences w) lo) as [o Ho]; [lia|].
    specialize (Hrun lo o ltac:(lia) Ho).
    rewrite (Hnone o) in Hrun by (by eapply list_elem_of_lookup_2).
    by destruct Hrun.
Qed.

(** X6.  When the search finds an intersection it cuts one block of
    consecutive ranges out of the store, from both parallel arrays, and
    answers with the index where the block began and its length.  Every
    range of the block intersects the padded range, and the block cannot be
    extended: the range before it and the range after it, where there is
    one, do not intersect. *)
Theorem removal_cuts_the_maximal_run (fuel : nat) (r : Range.t)
  (w w' : DecorationTypeWrapper.t) (ird : IntersectingRangeData.t)
  (union : Range.t) :
  removeIntersectingOccurrences fuel r w = Ret (ird, w') →
  range ird = Some union →
  ∃ lo hi : nat,
    insertIndex ird = Z.of_nat lo
    ∧ removed ird = Z.of_nat (hi - lo)
    ∧ (lo < hi ≤ length (activeOccurrences w))%nat
    ∧ activeOccurrences w'
      = take lo (activeOccurrences w) ++ drop hi (activeOccurrences w)
    ∧ decorationOptions w' = splice lo (hi - lo) [] (decorationOptions w)
    ∧ (∀ j o, (lo ≤ j < hi)%nat → activeOccurrences w !! j = Some o →
              is_Some (Range.intersection (paddedRange r) o))
    ∧ (∀ o, activeOccurrences w !! hi = Some o →
            Range.intersection (paddedRange r) o = None)
    ∧ (∀ j o, S j = lo → activeOccurrences w !! j = Some o →
              Range.intersection (paddedRange r) o = None).
Proof.
  unfold removeIntersectingOccurrences. intros Hs Hrange.
  destruct (search_shape _ _ _ _ _ _ _ Hs)
    as [(Hnone & _)|(lo & hi & _ & Hidx & Hrem & Hb & Hocc & Hdec & _ & _
                     & Hrun & Hafter & Hbefore)];
    [congruence|].
  exists lo, hi. split; [done|]. split; [lia|]. done.
Qed.

End SearchExtras.

(** ** Decorations and occurrences in step *)

Module StepExtras.

Import DecorationTypeWrapper.

Lemma search_in_step fuel ccr w l r ird w' :
  search fuel ccr w l r = Ret (ird, w') →
  map range (decorationOptions w) = activeOccurrences w →
  map range (decorationOptions w') = activeOccurrences w'.
Proof.
  intros Hs Hstep.
  destruct (SearchExtras.search_shape _ _ _ _ _ _ _ Hs)
    as [(_ & _ & ->)|(lo & hi & _ & _ & _ & Hb & -> & -> & _)]; [done|].
  rewrite WrapperExtras.map_splice, Hstep. unfold splice.
  rewrite Nat.min_l by lia. cbn [map app]. do 2 f_equal. lia.
Qed.

(** X7.  An incremental update that returns keeps the two parallel arrays in
    step: if each decoration decorated the occurrence of the same index
    before, it does so afterwards.  The rule and the document of the wrapper
    stay the same. *)
Theorem incremental_update_keeps_arrays_in_step `{Engine} (fuel : nat)
  (contentChange : ContentChange) (w w' : DecorationTypeWrapper.t) :
  generateOccurrencesOnChange fuel contentChange w = Ret w' →
  map range (decorationOptions w) = activeOccurrences w →
  map range (decorationOptions w') = activeOccurrences w'
  ∧ rule w' = rule w ∧ document w' = document w.
Proof.
  unfold generateOccurrencesOnChange, removeIntersectingOccurrences.
  destruct (search _ _ _ _ _) as [[ird w1]| |] eqn:Hs; cbn; try done.
  intros Hgen Hstep.
  pose proof (search_in_step _ _ _ _ _ _ _ Hs Hstep) as Hstep1.
  apply SearchFacts.search_result in Hs as (_ & Hrule & Hdoc).
  destruct (_ && _); [done|].
  destruct (new_RegExp _ _) as [regEx| |]; cbn in Hgen; try done.
  destruct (execLoop _ _ _ _ _ _) as [found| |]; cbn in Hgen; try done.
  injection Hgen as <-. cbn. split; [|done].
  rewrite !WrapperExtras.insertEach_splice, WrapperExtras.map_splice, Hstep1.
  f_equal. by apply WrapperExtras.map_range_imap.
Qed.

End StepExtras.

(** ** When the incremental scan returns *)

Module ScanExtras.

Import DecorationTypeWrapper.

Section Advancing.

Variables (re : RegExp.t) (s : list ascii).

Hypothesis cursor : RegExp.usesLastIndex re = true.

Hypothesis nonempty : ∀ i len, RegExp.matcher re s i = Some len → (0 < len)%nat.

Lemma firstMatch_found n i m :
  RegExp.firstMatch re s n i = Some m →
  (i ≤ RegExp.index m < i + n)%nat ∧ (0 < RegExp.matched m)%nat.
Proof.
  revert i. induction n as [|n IH]; intros i; cbn; [done|].
  destruct (RegExp.matcher re s i) as [len|] eqn:Hlen.
  - intros [= <-]. cbn. apply nonempty in Hlen. lia.
  - destruct (RegExp.sticky re); [done|].
    intros Hm%IH. lia.
Qed.

(** Every match moves the cursor on, so the loop returns whatever its guard
    says, once the fuel exceeds what is left of the text. *)
Lemma execLoop_advancing fuel guard lastIndex found :
  (S (length s) - lastIndex < fuel)%nat →
  ∃ res, execLoop fuel re s guard lastIndex found = Ret res.
Proof.
  revert lastIndex found.
  induction fuel as [|fuel IH]; intros lastIndex found Hfuel; [lia|].
  cbn [execLoop]. unfold RegExp.exec. rewrite cursor.
  destruct (RegExp.firstMatch _ _ _ _) as [m|] eqn:Hm; [|eauto].
  apply firstMatch_found in Hm as [Hidx Hlen].
  destruct (guard (length found)); [|eauto].
  apply IH. lia.
Qed.

End Advancing.

Lemma length_getTextIn d r :
  (length (TextDocument.getTextIn d r) ≤ length (TextDocument.text d))%nat.
Proof.
  unfold TextDocument.getTextIn, TextDocument.substring.
  rewrite length_take, length_drop. lia.
Qed.

(** X8.  With an expression that runs with the global or the sticky flag and
    never matches the empty text, the incremental update returns, whatever
    the cap and the size of the store allow its guard to say, once the fuel
    exceeds the number of stored ranges and the length of the text by more
    than one. *)
Theorem incremental_update_returns_when_matches_advance `{Engine}
  (fuel : nat) (contentChange : ContentChange) (w : DecorationTypeWrapper.t)
  (regEx : RegExp.t) :
  compile (regularExpression (rule w))
    (or_else (regularExpressionFlags (rule w)) "g") = Some regEx →
  RegExp.usesLastIndex regEx = true →
  (∀ s i len, RegExp.matcher regEx s i = Some len → (0 < len)%nat) →
  (length (activeOccurrences w) < fuel)%nat →
  (S (length (TextDocument.text (document w))) < fuel)%nat →
  ∃ w', generateOccurrencesOnChange fuel contentChange w = Ret w'.
Proof.
  intros Hre Hcursor Hnonempty Hstore Htext.
  unfold generateOccurrencesOnChange, removeIntersectingOccurrences.
  destruct (SearchFacts.search_returns fuel
              (paddedRange (getFullLineRange (cc_range contentChange))) w 0
              (Z.of_nat (length (activeOccurrences w)) - 1))
    as [[ird w1] Hs]; [lia|].
  rewrite Hs. cbn.
  apply SearchFacts.search_result in Hs as (Hrange & Hrule & Hdoc).
  destruct (Z.ltb_spec 0 (IntersectingRangeData.removed ird)) as [Hpos|_];
    cbn [andb negb].
  - rewrite bool_decide_eq_true_2 by auto. cbn [negb].
    rewrite Hrule, Hdoc. unfold new_RegExp. rewrite Hre. cbn.
    match goal with
    | |- context [execLoop fuel regEx ?t ?g 0%nat []] =>
        destruct (execLoop_advancing regEx t Hcursor (Hnonempty t) fuel g
                    0%nat []) as [found ->]
    end; [|cbn; eauto].
    pose proof (length_getTextIn (document w)
                  (getFullLineRange
                     (default (cc_range contentChange)
                        (IntersectingRangeData.range ird)))). lia.
  - rewrite Hrule, Hdoc. unfold new_RegExp. rewrite Hre. cbn.
    match goal with
    | |- context [execLoop fuel regEx ?t ?g 0%nat []] =>
        destruct (execLoop_advancing regEx t Hcursor (Hnonempty t) fuel g
                    0%nat []) as [found ->]
    end; [|cbn; eauto].
    pose proof (length_getTextIn (document w)
                  (getFullLineRange
                     (default (cc_range contentChange)
                        (IntersectingRangeData.range ird)))). lia.
Qed.

End ScanExtras.

(** ** The rule factory *)

Module FactoryExtras.

Import RuleFactory.

Section WithLocation.

Context {LocationState : Type}.

Implicit Types (f : RuleFactory.t LocationState) (rule : Rule).

(** What [updateRules] leaves behind. *)
Lemma updateRules_fields (m : gmap string Rule) (a : list Rule) f :
  rulesMap (updateRules m a f) = m
  ∧ rulesArray (updateRules m a f) = a
  ∧ enabledRulesCast (updateRules m a f)
    = enabledRulesCast f ++ [filter (fun r => enabled r = true) a]
  ∧ posted (updateRules m a f) = posted f
  ∧ locked (updateRules m a f) = locked f
  ∧ (size m = length a → errors (updateRules m a f) = errors f).
Proof.
  unfold updateRules, updateRulesLocally, pushRules, checkSizes.
  destruct (Nat.eqb_spec (size m) (length a)) as [Heq|Hne]; cbn;
    destruct (grepcProvider f); cbn; repeat split; done.
Qed.

Lemma filter_id_ne (i : string) (a : list Rule) :
  Forall (fun x => id x ≠ i) a → filter (fun val => id val ≠ i) a = a.
Proof.
  induction 1 as [|x a Hx _ IH]; [done|].
  rewrite filter_cons. destruct (decide (id x ≠ i)); [by rewrite IH | done].
Qed.

(** X9.  Adding a rule under an identifier that is free succeeds: the rule
    can be looked up under its identifier, the rules stored under other
    identifiers are untouched, the rule is the last of the array, the enabled
    rules are broadcast, and a map and an array that agreed in size still do,
    with nothing written to the error log. *)
Theorem addRule_fresh_id rule f :
  rulesMap f !! id rule = None →
  ∃ f',
    addRule rule f = Ret f'
    ∧ getRule f' (id rule) = Some rule
    ∧ (∀ i, i ≠ id rule → getRule f' i = getRule f i)
    ∧ getRulesArray f' = getRulesArray f ++ [rule]
    ∧ enabledRulesCast f'
      = enabledRulesCast f
        ++ [filter (fun r => enabled r = true) (getRulesArray f ++ [rule])]
    ∧ (size (rulesMap f) = length (rulesArray f) →
       size (rulesMap f') = length (rulesArray f')
       ∧ errors f' = errors f).
Proof.
  intros Hfree. unfold addRule, getRulesMap, getRulesArray, getRule.
  rewrite bool_decide_eq_false_2 by (rewrite Hfree; by intros [? [=]]).
  eexists. split; [reflexivity|].
  unfold getRule, getRulesMap, getRulesArray.
  destruct (updateRules_fields (<[id rule := rule]> (rulesMap f))
              (rulesArray f ++ [rule]) f)
    as (-> & -> & -> & _ & _ & Herr).
  split; [apply lookup_insert_eq|].
  split; [intros i Hi; by apply lookup_insert_ne|].
  split; [done|]. split; [done|].
  intros Hsize.
  assert (size (<[id rule := rule]> (rulesMap f))
          = length (rulesArray f ++ [rule])) as Hsize'.
  { rewrite map_size_insert_None, length_app by done. cbn. lia. }
  split; [exact Hsize' | by apply Herr].
Qed.

(** X10.  Removing a rule never throws.  Afterwards nothing is stored under
    the identifier, and the rules under other identifiers are untouched.  For
    an identifier that was not in the map, the array stays as it was and
    nothing is broadcast: only a line is written to the error log. *)
Theorem removeRule_never_throws (i : string) f :
  ∃ f',
    removeRule i f = Ret f'
    ∧ getRule f' i = None
    ∧ (∀ j, j ≠ i → getRule f' j = getRule f j)
    ∧ (∀ rule, rulesMap f !! i = Some rule →
         getRulesArray f'
         = filter (fun val => id val ≠ id rule) (getRulesArray f))
    ∧ (rulesMap f !! i = None →
       getRulesArray f' = getRulesArray f
       ∧ enabledRulesCast f' = enabledRulesCast f
       ∧ errors f'
         = errors f ++ ["Unable to find rule id in rule map to delete"]).
Proof.
  unfold removeRule, getRulesMap, getRulesArray, getRule.
  destruct (rulesMap f !! i) as [rule|] eqn:Hi.
  - rewrite bool_decide_eq_true_2 by eauto. cbn.
    eexists. split; [reflexivity|].
    unfold getRule, getRulesMap, getRulesArray.
    destruct (updateRules_fields (delete i (rulesMap f))
                (filter (fun val => id val ≠ id rule) (rulesArray f)) f)
      as (-> & -> & _).
    split; [apply lookup_delete_eq|].
    split; [intros j Hj; by apply lookup_delete_ne|].
    split; [by intros ? [= <-] | done].
  - eexists. split; [reflexivity|]. cbn.
    split; [done|]. split; [done|]. split; [done|]. done.
Qed.

(** X11.  Adding a rule under a free identifier that no rule of the array
    carries and removing it again brings the stored map and the stored array
    back to what they were. *)
Theorem addRule_then_removeRule rule f :
  rulesMap f !! id rule = None →
  Forall (fun x => id x ≠ id rule) (rulesArray f) →
  ∃ f'',
    (f' ← addRule rule f; removeRule (id rule) f') = Ret f''
    ∧ rulesMap f'' = rulesMap f
    ∧ rulesArray f'' = rulesArray f.
Proof.
  intros Hfree Hnone. unfold addRule, getRulesMap, getRulesArray.
  rewrite bool_decide_eq_false_2 by (rewrite Hfree; by intros [? [=]]).
  cbn. unfold removeRule, getRulesMap, getRulesArray.
  destruct (updateRules_fields (<[id rule := rule]> (rulesMap f))
              (rulesArray f ++ [rule]) f) as (-> & -> & _).
  rewrite lookup_insert_eq.
  rewrite bool_decide_eq_true_2 by eauto. cbn.
  eexists. split; [reflexivity|].
  match goal with
  | |- context [updateRules ?m ?a ?g] =>
      destruct (updateRules_fields m a g) as (-> & -> & _)
  end.
  split; [by apply delete_insert_id|].
  rewrite filter_app, filter_id_ne by done.
  rewrite filter_cons, decide_False by (intros Hne; by apply Hne).
  by rewrite filter_nil, app_nil_r.
Qed.

(** X12.  Reporting occurrences stores the rule with the report written into
    it under the rule's identifier, in the map and in every slot of the array
    that held a rule of that identifier; the other rules, the length of the
    array, the lock and the error log are untouched.  It never broadcasts the
    enabled rules and never pushes the rules to the provider, and it posts
    exactly one message when a web view is attached and none otherwise. *)
Theorem pushOccurrences_stores_the_report rule (ranges : list LineRange)
  (count : Z) f :
  let f' := pushOccurrences rule ranges count f in
  let stored := withReport rule ranges count in
  getRule f' (id rule) = Some stored
  ∧ (∀ i, i ≠ id rule → getRule f' i = getRule f i)
  ∧ length (getRulesArray f') = length (getRulesArray f)
  ∧ (∀ k value, getRulesArray f !! k = Some value →
       getRulesArray f' !! k
       = Some (if String.eqb (id value) (id rule) then stored else value))
  ∧ enabledRulesCast f' = enabledRulesCast f
  ∧ pushedRules f' = pushedRules f
  ∧ locked f' = locked f
  ∧ errors f' = errors f
  ∧ posted f'
    = posted f
      ++ (if grepcProvider f is Some true
          then [mkMessage (id rule) ranges count] else []).
Proof.
  intros f' stored. subst f' stored.
  unfold pushOccurrences, postMessage, updateRuleWithNoSideEffects,
    getRule, getRulesMap, getRulesArray.
  cbn.
  assert (∀ (g : Rule → Rule) k value,
             rulesArray f !! k = Some value →
             map g (rulesArray f) !! k = Some (g value)) as Hslot.
  { intros g k value Hk. change (map g (rulesArray f)) with (g <$> rulesArray f).
    by rewrite list_lookup_fmap, Hk. }
  destruct (grepcProvider f) as [[|]|]; cbn;
    (split; [apply lookup_insert_eq|]);
    (split; [intros i Hi; by apply lookup_insert_ne|]);
    (split; [by rewrite length_map|]);
    (split; [intros k value Hk; by rewrite (Hslot _ k value Hk)|]);
    rewrite ?app_nil_r; done.
Qed.

Lemma filter_enabled_disabled (a : list Rule) :
  filter (fun r => enabled r = true) (map (withEnabled false) a) = [].
Proof.
  induction a as [|x a IH]; [done|]. cbn [map].
  rewrite filter_cons. by destruct (decide _).
Qed.

Lemma filter_enabled_enabled (a : list Rule) :
  filter (fun r => enabled r = true) (map (withEnabled true) a)
  = map (withEnabled true) a.
Proof.
  induction a as [|x a IH]; [done|]. cbn [map].
  rewrite filter_cons. destruct (decide _) as [|Hn]; [by rewrite IH|].
  by destruct Hn.
Qed.

(** X13.  Disabling the rules keeps every rule, in the map and in the array,
    with its flag off and nothing else changed, counts no rule as enabled,
    and broadcasts the empty list. *)
Theorem disableRules_disables_all f :
  let f' := disableRules f in
  (∀ i, getRule f' i = withEnabled false <$> getRule f i)
  ∧ getRulesArray f' = map (withEnabled false) (getRulesArray f)
  ∧ rulesCount f' = rulesCount f
  ∧ enabledRulesCount f' = 0%nat
  ∧ enabledRulesCast f' = enabledRulesCast f ++ [[]].
Proof.
  intros f'. subst f'.
  unfold disableRules, getRule, rulesCount, enabledRulesCount, getRulesMap,
    getRulesArray.
  destruct (updateRules_fields (withEnabled false <$> rulesMap f)
              (map (withEnabled false) (rulesArray f)) f)
    as (-> & -> & -> & _).
  rewrite filter_enabled_disabled, length_map.
  split; [intros i; apply lookup_fmap|]. done.
Qed.

(** X14.  Enabling the rules keeps every rule with its flag on, counts every
    rule as enabled, and broadcasts the whole array; and enabling after
    disabling stores what enabling alone stores. *)
Theorem enableRules_enables_all f :
  let f' := enableRules f in
  (∀ i, getRule f' i = withEnabled true <$> getRule f i)
  ∧ getRulesArray f' = map (withEnabled true) (getRulesArray f)
  ∧ enabledRulesCount f' = rulesCount f
  ∧ enabledRulesCast f'
    = enabledRulesCast f ++ [map (withEnabled true) (getRulesArray f)]
  ∧ getRulesMap (enableRules (disableRules f)) = getRulesMap f'
  ∧ getRulesArray (enableRules (disableRules f)) = getRulesArray f'.
Proof.
  intros f'. subst f'.
  unfold enableRules, disableRules, getRule, rulesCount, enabledRulesCount,
    getRulesMap, getRulesArray.
  repeat match goal with
  | |- context [updateRules ?m ?a ?g] =>
      let Hm := fresh in let Ha := fresh in let Hc := fresh in
      destruct (updateRules_fields m a g) as (Hm & Ha & Hc & _);
      rewrite ?Hm, ?Ha, ?Hc; clear Hm Ha Hc
  end.
  rewrite filter_enabled_enabled, length_map.
  split; [intros i; apply lookup_fmap|].
  split; [done|]. split; [done|]. split; [done|].
  split.
  - rewrite <- map_fmap_compose. apply map_fmap_ext. by intros ? [] _.
  - rewrite map_map. apply map_ext. by intros [].
Qed.

End WithLocation.

End FactoryExtras.

(** ** The manager's change detection and clearing *)

Module ManagerExtras.

Import DecorationTypeManager.

Section WithLocation.

Context {LocationState : Type} `{Countable LocationState}.

Implicit Types (m : DecorationTypeManager.t LocationState)
  (f : RuleFactory.t LocationState).

Lemma ruleChanged_false (o e : Rule) :
  String.eqb (id e) (id o) = true ∧ ruleChanged o e = false
  ↔ sameCompared o e.
Proof.
  unfold ruleChanged, sameCompared.
  rewrite !orb_false_iff, !negb_false_iff, !String.eqb_eq, Bool.eqb_true_iff,
    Z.eqb_eq, bool_decide_eq_true.
  tauto.
Qed.

Lemma changeFrom_false (i : nat) (rest old : list Rule) :
  changeFrom i rest old = false
  ↔ Forall2 sameCompared (take (length rest) (drop i old)) rest.
Proof.
  revert i. induction rest as [|e rest IH]; intros i; cbn [changeFrom length].
  - rewrite take_0. split; [constructor | done].
  - destruct (old !! i) as [o|] eqn:Ho.
    + rewrite (drop_S _ _ _ Ho). cbn [take].
      rewrite Forall2_cons, <- IH, <- ruleChanged_false.
      destruct (String.eqb (id e) (id o)); cbn; [|intuition congruence].
      destruct (ruleChanged o e); cbn; intuition congruence.
    + rewrite drop_ge by (by apply lookup_ge_None).
      rewrite take_nil. split; [done | inversion 1].
Qed.

(** X15.  Change detection answers "no change" exactly when a list is
    remembered for the location, it is as long as the new list, and index by
    index the rules carry the same identifier and the same values of the
    twenty-one compared properties.  The flags [enabled], [expanded] and
    [decorationExpanded] and the reported occurrences play no part. *)
Theorem no_change_iff_same_compared (enabledRules : list Rule)
  (location : LocationState) m :
  isDecorationChangeInArray enabledRules location m = false
  ↔ ∃ oldEnabledRules,
      _factoryToOldEnabledRules m !! location = Some oldEnabledRules
      ∧ Forall2 sameCompared oldEnabledRules enabledRules.
Proof.
  unfold isDecorationChangeInArray.
  destruct (_factoryToOldEnabledRules m !! location) as [old|];
    [|split; [done | by intros (? & [=] & _)]].
  destruct (Nat.eqb_spec (length enabledRules) (length old)) as [Hlen|Hlen];
    cbn.
  - rewrite changeFrom_false, drop_0, Hlen, firstn_all.
    split; [eauto | by intros (? & [= <-] & ?)].
  - split; [done|]. intros (? & [= <-] & Hall%Forall2_length). lia.
Qed.

Lemma call_activeEditor c m : _activeEditor (call c m) = _activeEditor m.
Proof. unfold call. destruct (_activeEditor m) eqn:He; cbn; congruence. Qed.

(** Emptying a list of decoration types appends one call per type when there
    is an active editor, and changes nothing else. *)
Lemma empty_types_calls (types : list nat) m :
  let m' := foldl (fun m ty => call (SetDecorations ty []) m) m types in
  editorCalls m'
  = editorCalls m
    ++ (if _activeEditor m is Some _
        then map (fun ty => SetDecorations ty []) types else [])
  ∧ _activeEditor m' = _activeEditor m
  ∧ lastActiveEditor m' = lastActiveEditor m
  ∧ _decorationSet m' = _decorationSet m
  ∧ _factoryToDecorations m' = _factoryToDecorations m
  ∧ _ruleToDecorationType m' = _ruleToDecorationType m
  ∧ _ruleToActiveOccurrences m' = _ruleToActiveOccurrences m
  ∧ _factoryToOldEnabledRules m' = _factoryToOldEnabledRules m
  ∧ _activeDecorations m' = _activeDecorations m
  ∧ nextDecorationType m' = nextDecorationType m
  ∧ errors m' = errors m.
Proof.
  revert m. induction types as [|ty types IH]; intros m; cbv zeta;
    cbn [foldl map].
  - split; [|done]. destruct (_activeEditor m); by rewrite app_nil_r.
  - pose proof (IH (call (SetDecorations ty []) m)) as IH'.
    cbv zeta in IH'.
    destruct IH' as (-> & -> & -> & -> & -> & -> & -> & -> & -> & -> & ->).
    rewrite call_activeEditor. unfold call.
    destruct (_activeEditor m) eqn:He; cbn; [|by rewrite app_nil_r].
    by rewrite <- app_assoc.
Qed.

(** X16.  Clearing all decorations empties every decoration type of the set
    on the active editor, one call each in the order of the set, and forgets
    the set and the stored occurrences, so that every jump from then on finds
    nothing and does nothing.  It keeps the remembered lists of enabled
    rules: the same list delivered afterwards is still seen as unchanged. *)
Theorem clearAllDecorations_forgets_occurrences m :
  let m' := clearAllDecorations m in
  (∀ lineRange, occurrenceAt lineRange m' = None
                ∧ jumpToLine lineRange m' = m')
  ∧ _decorationSet m' = []
  ∧ editorCalls m'
    = editorCalls m
      ++ (if _activeEditor m is Some _
          then map (fun ty => SetDecorations ty []) (_decorationSet m)
          else [])
  ∧ (∀ rules location,
        isDecorationChangeInArray rules location m'
        = isDecorationChangeInArray rules location m).
Proof.
  intros m'. subst m'. unfold clearAllDecorations.
  destruct (empty_types_calls (_decorationSet m) m) as (Hcalls & _).
  cbn in Hcalls. split; [|split; [done|split; [exact Hcalls | done]]].
  intros lineRange.
  assert (occurrenceAt lineRange
            (mk (_activeEditor m) (lastActiveEditor m) []
               (_factoryToDecorations m) (_ruleToDecorationType m) ∅
               (_factoryToOldEnabledRules m) ∅ (nextDecorationType m)
               (editorCalls
                  (foldl (fun m ty => call (SetDecorations ty []) m) m
                     (_decorationSet m)))
               (errors m)) = None) as Hnone.
  { unfold occurrenceAt. destruct lineRange; [|done]. cbn.
    by rewrite lookup_empty. }
  split; [exact Hnone|]. unfold jumpToLine. by rewrite Hnone.
Qed.

(** X17.  Clearing the decorations of a factory only talks to the editor: it
    empties each decoration type registered for the factory's location, one
    call each, and none without an active editor or for a location without
    registered types; the stored occurrences, the remembered rules and every
    other part of the manager stay as they were. *)
Theorem clearDecorationsByFactory_only_calls_editor f m :
  let m' := clearDecorationsByFactory f m in
  editorCalls m'
  = editorCalls m
    ++ (if _activeEditor m is Some _
        then map (fun ty => SetDecorations ty [])
               (default [] (_factoryToDecorations m !! RuleFactory.location f))
        else [])
  ∧ _ruleToActiveOccurrences m' = _ruleToActiveOccurrences m
  ∧ _factoryToOldEnabledRules m' = _factoryToOldEnabledRules m
  ∧ _factoryToDecorations m' = _factoryToDecorations m
  ∧ _ruleToDecorationType m' = _ruleToDecorationType m
  ∧ _activeDecorations m' = _activeDecorations m
  ∧ _activeEditor m' = _activeEditor m.
Proof.
  intros m'. subst m'. unfold clearDecorationsByFactory.
  destruct (empty_types_calls
              (default [] (_factoryToDecorations m !! RuleFactory.location f))
              m)
    as (Hcalls & He & _ & _ & Hfd & Hrd & Hocc & Hold & Had & _).
  cbn in *. done.
Qed.

End WithLocation.

End ManagerExtras.

(** ** What the manager reports and stores *)

Module ReportExtras.

Import DecorationTypeManager.

Lemma lines_from_length s cur : (0 < length (TextDocument.lines_from s cur))%nat.
Proof.
  revert cur. induction s as [|ch s IH]; intros cur; cbn; [lia|].
  destruct (TextDocument.is_LF ch); cbn; [lia | apply IH].
Qed.

(** A position made from an offset lies on a line of the document. *)
Lemma positionAt_from_line s k l c cur :
  (Position.line (TextDocument.positionAt_from s k l c)
   < l + length (TextDocument.lines_from s cur))%nat.
Proof.
  revert k l c cur. induction s as [|ch s IH]; intros [|k] l c cur;
    try (cbn; lia).
  - pose proof (lines_from_length (ch :: s) cur). cbn in *. lia.
  - cbn. destruct (TextDocument.is_LF ch).
    + specialize (IH k (S l) 0%nat []). cbn. lia.
    + apply IH.
Qed.

Lemma positionAt_line d k :
  (Position.line (TextDocument.positionAt d k) < TextDocument.lineCount d)%nat.
Proof.
  unfold TextDocument.positionAt, TextDocument.lineCount, TextDocument.lines.
  apply (positionAt_from_line (TextDocument.text d) k 0 0 []).
Qed.

Lemma lineAt_returns d n :
  (n < TextDocument.lineCount d)%nat → ∃ l, TextDocument.lineAt d n = Ret l.
Proof.
  unfold TextDocument.lineAt, TextDocument.lineCount. intros Hn.
  destruct (lookup_lt_is_Some_2 (TextDocument.lines d) n Hn) as [l ->]. eauto.
Qed.

Lemma mapM_lineAt_returns d (ns : list nat) :
  Forall (fun n => (n < TextDocument.lineCount d)%nat) ns →
  ∃ ls, mapM (TextDocument.lineAt d) ns = Ret ls ∧ length ls = length ns.
Proof.
  induction 1 as [|n ns Hn _ (ls & IH & Hlen)]; cbn; [by exists []|].
  destruct (lineAt_returns d n Hn) as [l ->]. cbn.
  rewrite IH. cbn. exists (l :: ls). cbn. by rewrite Hlen.
Qed.

Lemma toLineRangesFrom_matches d ruleId (ms : list RegExp.Match) :
  ∀ first,
  ∃ lineRanges,
    toLineRangesFrom d ruleId first (map (rangeOfMatch d 0) ms)
    = Ret lineRanges
    ∧ length lineRanges = length ms
    ∧ ∀ k lr, lineRanges !! k = Some lr →
        lr_ruleId lr = ruleId
        ∧ lr_index lr = Z.of_nat (first + k)
        ∧ lr_selectionNumber lr = (first + k)%nat
        ∧ length (lr_lines lr) = length (lr_lineNumbers lr).
Proof.
  induction ms as [|mt ms IH]; intros first; cbn [map toLineRangesFrom].
  - exists []. split; [done|]. split; [done|]. intros k lr. by rewrite lookup_nil.
  - unfold toLineRange. rewrite RebuildFacts.rangeOfMatch_ends.
    cbn [Range.start Range.end_].
    destruct (lineAt_returns d _ (positionAt_line d (0 + RegExp.index mt)))
      as [l0 ->].
    cbn.
    match goal with
    | |- context [mapM (TextDocument.lineAt d) ?ns] =>
        destruct (mapM_lineAt_returns d ns) as (ls & -> & Hls)
    end.
    { apply Forall_forall. intros n Hn%list_elem_of_In%in_seq.
      pose proof (positionAt_line d
                    (0 + RegExp.index mt + RegExp.matched mt)).
      pose proof (positionAt_line d (RegExp.index mt + RegExp.matched mt)).
      cbn in *. lia. }
    cbn. destruct (IH (S first)) as (rest & -> & Hlen & Hrest). cbn.
    eexists. split; [reflexivity|]. split; [cbn; by rewrite Hlen|].
    intros [|k] lr; cbn.
    + intros [= <-]. cbn. rewrite Nat.add_0_r. done.
    + intros Hk. destruct (Hrest k lr Hk) as (? & ? & ? & ?).
      rewrite <- Nat.add_succ_comm. done.
Qed.

(** X18.  For the ranges of matches found in the active document,
    [toLineRanges] returns without an exception, one entry per range and in
    the same order: the entry of index [k] carries the rule's identifier, [k]
    as its index and its selection number, and one line of text per line
    number.  Without an active editor the list is empty. *)
Theorem toLineRanges_of_matches (activeEditor : TextEditor) (ruleId : string)
  (ms : list RegExp.Match) :
  (∃ lineRanges,
     toLineRanges (Some activeEditor) ruleId
       (map (rangeOfMatch (editorDocument activeEditor) 0) ms)
     = Ret lineRanges
     ∧ length lineRanges = length ms
     ∧ ∀ k lr, lineRanges !! k = Some lr →
         lr_ruleId lr = ruleId
         ∧ lr_index lr = Z.of_nat k
         ∧ lr_selectionNumber lr = k
         ∧ length (lr_lines lr) = length (lr_lineNumbers lr))
  ∧ toLineRanges None ruleId
      (map (rangeOfMatch (editorDocument activeEditor) 0) ms) = Ret [].
Proof.
  split; [|done]. cbn [toLineRanges].
  apply (toLineRangesFrom_matches (editorDocument activeEditor) ruleId ms 0).
Qed.

Section WithLocation.

Context {LocationState : Type} `{Countable LocationState}.

Implicit Types (m : DecorationTypeManager.t LocationState)
  (f : RuleFactory.t LocationState).

Lemma pushOccurrences_getRule rule ranges count f (i : string) :
  RuleFactory.getRule (RuleFactory.pushOccurrences rule ranges count f) i
  = if decide (i = id rule) then Some (withReport rule ranges count)
    else RuleFactory.getRule f i.
Proof.
  unfold RuleFactory.pushOccurrences, RuleFactory.postMessage,
    RuleFactory.updateRuleWithNoSideEffects, RuleFactory.getRule,
    RuleFactory.getRulesMap.
  cbn.
  destruct (RuleFactory.grepcProvider f) as [[|]|]; cbn;
    (destruct (decide (i = id rule)) as [->|Hne];
     [apply lookup_insert_eq | by apply lookup_insert_ne]).
Qed.

Lemma pushOccurrences_cast rule ranges count f :
  RuleFactory.enabledRulesCast (RuleFactory.pushOccurrences rule ranges count f)
  = RuleFactory.enabledRulesCast f.
Proof.
  unfold RuleFactory.pushOccurrences, RuleFactory.postMessage.
  cbn. by destruct (RuleFactory.grepcProvider f) as [[|]|].
Qed.

Lemma report_all_empty (rules : list Rule) :
  NoDup (map id rules) →
  ∀ f,
    let f' :=
      foldl (fun f rule => RuleFactory.pushOccurrences rule [] 0 f) f rules in
    (∀ r, r ∈ rules → RuleFactory.getRule f' (id r) = Some (withReport r [] 0))
    ∧ (∀ i, i ∉ map id rules → RuleFactory.getRule f' i = RuleFactory.getRule f i)
    ∧ RuleFactory.enabledRulesCast f' = RuleFactory.enabledRulesCast f.
Proof.
  induction rules as [|r rules IH]; intros Hnd f; cbv zeta; cbn [foldl map].
  - split; [by intros r Hr%elem_of_nil | done].
  - cbn [map] in Hnd. apply NoDup_cons in Hnd as [Hr Hnd].
    pose proof (IH Hnd (RuleFactory.pushOccurrences r [] 0 f)) as IH'.
    cbv zeta in IH'. destruct IH' as (Hin & Hout & Hcast).
    split; [|split].
    + intros r' [->|Hr']%elem_of_cons; [|by apply Hin].
      rewrite (Hout (id r) Hr), pushOccurrences_getRule.
      by rewrite decide_True.
    + intros i Hi%not_elem_of_cons. destruct Hi as [Hne Hi].
      rewrite (Hout i Hi), pushOccurrences_getRule.
      by rewrite decide_False.
    + by rewrite Hcast, pushOccurrences_cast.
Qed.

Section WithEngine.

Context `{Engine}.

(** X19.  An update that runs without an active editor evaluates no filter
    and no pattern, so it returns for every list of rules and any fuel.  With
    identifiers that are all different, each rule of the list is stored with
    an empty report, the rules under other identifiers are untouched and
    nothing is broadcast.  The editor is not called and the occurrences
    stored for jumps are left as they were. *)
Theorem update_without_editor_reports_empty (fuel : nat) (rules : list Rule)
  m f :
  RuleFactory.locked f = false →
  _activeEditor m = None →
  NoDup (map id rules) →
  ∃ m' f',
    updateDecorations fuel rules (m, f) = Ret (m', f')
    ∧ (∀ r, r ∈ rules →
         RuleFactory.getRule f' (id r) = Some (withReport r [] 0))
    ∧ (∀ i, i ∉ map id rules →
         RuleFactory.getRule f' i = RuleFactory.getRule f i)
    ∧ RuleFactory.enabledRulesCast f' = RuleFactory.enabledRulesCast f
    ∧ editorCalls m' = editorCalls m
    ∧ _ruleToActiveOccurrences m' = _ruleToActiveOccurrences m.
Proof.
  intros Hlocked Heditor Hnd. unfold updateDecorations.
  rewrite Hlocked, Heditor.
  eexists _, _. split; [reflexivity|].
  pose proof (report_all_empty rules Hnd f) as Hall. cbv zeta in Hall.
  destruct Hall as (Hin & Hout & Hcast). done.
Qed.

(** X20.  For a rule without filters whose pattern is set and compiles, the
    loop body of the manager stores for jumps exactly the ranges the
    wrapper's full rebuild of the same document computes for the rule, leaves
    the ranges of other rules alone, and, the document being the active
    editor's, reports one line range per stored range with their number as
    the count. *)
Theorem manager_scan_agrees_with_wrapper_rebuild (fuel : nat)
  (activeEditor : TextEditor) (rule : Rule) (regEx : RegExp.t) m f
  (w : DecorationTypeWrapper.t) :
  _activeEditor m = Some activeEditor →
  excludedFiles rule = "" →
  includedFiles rule = "" →
  regularExpression rule ≠ "" →
  compile (regularExpression rule)
    (or_else (regularExpressionFlags rule) "g") = Some regEx →
  Z.max 0 (cap rule) < Z.of_nat fuel →
  ∃ m' w' lineRanges,
    DecorationTypeWrapper.updateOccurrences fuel
      (editorDocument activeEditor) (Some rule) w = Ret w'
    ∧ decorateRule fuel activeEditor rule (m, f)
      = Ret (m',
             RuleFactory.pushOccurrences rule lineRanges
               (Z.of_nat (length (DecorationTypeWrapper.activeOccurrences w')))
               f)
    ∧ length lineRanges = length (DecorationTypeWrapper.activeOccurrences w')
    ∧ _ruleToActiveOccurrences m' !! id rule
      = Some (DecorationTypeWrapper.activeOccurrences w')
    ∧ (∀ i, i ≠ id rule →
         _ruleToActiveOccurrences m' !! i = _ruleToActiveOccurrences m !! i).
Proof.
  intros Heditor Hexcl Hincl Hpattern Hre Hfuel.
  unfold decorateRule, DecorationTypeWrapper.updateOccurrences.
  rewrite Hexcl, Hincl. cbn.
  apply String.eqb_neq in Hpattern. rewrite Hpattern.
  unfold scanRule, new_RegExp. cbn [default]. rewrite Hre. cbn.
  destruct (LoopFacts.execLoop_capped regEx
              (TextDocument.getText (editorDocument activeEditor))
              (cap rule) fuel 0 []) as (found & -> & _); [cbn; lia|].
  cbn. rewrite Heditor.
  destruct (toLineRangesFrom_matches (editorDocument activeEditor) (id rule)
              found 0) as (lineRanges & Hlr & Hlen & _).
  cbn [toLineRanges]. rewrite Hlr. cbn.
  eexists _, _, lineRanges. split; [reflexivity|]. cbn.
  rewrite length_imap.
  split; [reflexivity|]. split; [by rewrite length_map|].
  unfold call, clearDecorations, setActiveOccurrences. cbn.
  destruct (_ruleToDecorationType m !! id rule); cbn; rewrite Heditor; cbn;
    (split; [apply lookup_insert_eq | intros i Hi; by apply lookup_insert_ne]).
Qed.

End WithEngine.

End WithLocation.

End ReportExtras.

(** ** What an update never does *)

Module UpdateExtras.

Import DecorationTypeManager.

Section WithLocation.

Context {LocationState : Type} `{Countable LocationState} `{Engine}.

Implicit Types (m : DecorationTypeManager.t LocationState)
  (f : RuleFactory.t LocationState).

(** Whatever the loop body does with a rule, what it does to the factory is
    one report for that rule. *)
Lemma decorateRule_factory fuel activeEditor rule m f m' f' :
  decorateRule fuel activeEditor rule (m, f) = Ret (m', f') →
  ∃ ranges count, f' = RuleFactory.pushOccurrences rule ranges count f.
Proof.
  unfold decorateRule.
  destruct (if String.eqb (excludedFiles rule) "" then Ret false else _)
    as [[|]| |]; cbn; try done; [intros [= _ <-]; eauto|].
  destruct (if String.eqb (includedFiles rule) "" then Ret false else _)
    as [[|]| |]; cbn; try done; [intros [= _ <-]; eauto|].
  destruct (String.eqb (regularExpression rule) "");
    [intros [= _ <-]; eauto|].
  unfold scanRule.
  destruct (new_RegExp _ _) as [regEx| |]; cbn; try done;
    [|intros [= _ <-]; eauto].
  destruct (execLoop _ _ _ _ _ _) as [found| |]; cbn; try done;
    [|intros [= _ <-]; eauto].
  destruct (toLineRanges _ _ _) as [lineRanges| |]; cbn; try done.
  - unfold getTextEditorDecorationType. cbn. intros [= _ <-]. eauto.
  - intros [= _ <-]. eauto.
Qed.

Lemma pushOccurrences_frame rule ranges count f :
  let f' := RuleFactory.pushOccurrences rule ranges count f in
  RuleFactory.enabledRulesCast f' = RuleFactory.enabledRulesCast f
  ∧ RuleFactory.pushedRules f' = RuleFactory.pushedRules f
  ∧ RuleFactory.locked f' = RuleFactory.locked f
  ∧ RuleFactory.location f' = RuleFactory.location f
  ∧ RuleFactory.errors f' = RuleFactory.errors f
  ∧ length (RuleFactory.rulesArray f') = length (RuleFactory.rulesArray f).
Proof.
  unfold RuleFactory.pushOccurrences, RuleFactory.postMessage. cbn.
  destruct (RuleFactory.grepcProvider f) as [[|]|]; cbn;
    by rewrite length_map.
Qed.

Lemma forEachRule_frame fuel activeEditor (rules : list Rule) m f m' f' :
  forEachRule fuel activeEditor rules (m, f) = Ret (m', f') →
  RuleFactory.enabledRulesCast f' = RuleFactory.enabledRulesCast f
  ∧ RuleFactory.pushedRules f' = RuleFactory.pushedRules f
  ∧ RuleFactory.locked f' = RuleFactory.locked f
  ∧ RuleFactory.location f' = RuleFactory.location f
  ∧ RuleFactory.errors f' = RuleFactory.errors f
  ∧ length (RuleFactory.rulesArray f') = length (RuleFactory.rulesArray f).
Proof.
  revert m f. induction rules as [|rule rules IH]; intros m f;
    cbn [forEachRule].
  - by intros [= <- <-].
  - destruct (decorateRule fuel activeEditor rule (m, f)) as [[m1 f1]| |]
      eqn:Hd; cbn; try done.
    apply decorateRule_factory in Hd as (ranges & count & ->).
    intros (-> & -> & -> & -> & -> & ->)%IH.
    apply pushOccurrences_frame.
Qed.

(** X21.  An update that returns never broadcasts the enabled rules and never
    pushes the rules to the provider, so handling a broadcast cannot set off
    another one.  It also leaves the lock, the location, the error log and
    the length of the stored array of the factory as they were. *)
Theorem updateDecorations_never_broadcasts (fuel : nat) (rules : list Rule)
  m f m' f' :
  updateDecorations fuel rules (m, f) = Ret (m', f') →
  RuleFactory.enabledRulesCast f' = RuleFactory.enabledRulesCast f
  ∧ RuleFactory.pushedRules f' = RuleFactory.pushedRules f
  ∧ RuleFactory.locked f' = RuleFactory.locked f
  ∧ RuleFactory.location f' = RuleFactory.location f
  ∧ RuleFactory.errors f' = RuleFactory.errors f
  ∧ length (RuleFactory.rulesArray f') = length (RuleFactory.rulesArray f).
Proof.
  unfold updateDecorations.
  destruct (RuleFactory.locked f) eqn:Hlocked; [by intros [= <- <-]|].
  destruct (_activeEditor m) as [activeEditor|].
  - by intros (-> & -> & -> & -> & -> & ->)%forEachRule_frame.
  - intros [= _ <-].
    assert (∀ g : RuleFactory.t LocationState,
               let g' :=
                 foldl (fun g rule => RuleFactory.pushOccurrences rule [] 0 g)
                   g rules in
               RuleFactory.enabledRulesCast g' = RuleFactory.enabledRulesCast g
               ∧ RuleFactory.pushedRules g' = RuleFactory.pushedRules g
               ∧ RuleFactory.locked g' = RuleFactory.locked g
               ∧ RuleFactory.location g' = RuleFactory.location g
               ∧ RuleFactory.errors g' = RuleFactory.errors g
               ∧ length (RuleFactory.rulesArray g')
                 = length (RuleFactory.rulesArray g)) as Hall.
    { clear. induction rules as [|rule rules IH]; intros g; cbv zeta;
        cbn [foldl]; [done|].
      pose proof (IH (RuleFactory.pushOccurrences rule [] 0 g)) as IH'.
      cbv zeta in IH'. destruct IH' as (-> & -> & -> & -> & -> & ->).
      apply pushOccurrences_frame. }
    pose proof (Hall f) as Hf. cbv zeta in Hf.
    destruct Hf as (-> & -> & -> & -> & -> & ->). done.
Qed.

End WithLocation.

(** X22.  The manager's comparison is at least as fine as the wrapper's: when
    the manager finds a rule unchanged against the wrapper's rule
    (same identifier, same compared properties), the wrapper finds neither a
    changed decoration nor a need to update its occurrences. *)
Theorem unchanged_for_manager_is_unchanged_for_wrapper
  (w : DecorationTypeWrapper.t) (current : Rule) :
  sameCompared (DecorationTypeWrapper.rule w) current →
  DecorationTypeWrapper.hasDecorationChanged w current = false
  ∧ DecorationTypeWrapper.needsOnlyOccurrenceUpdate w current = false.
Proof.
  unfold sameCompared.
  intros (Hid & ? & ? & ? & ? & ? & ? & ? & ? & ? & ? & ? & ? & ? & ? & ? & ?
          & ? & ? & ? & ? & ?).
  unfold DecorationTypeWrapper.needsOnlyOccurrenceUpdate.
  assert (DecorationTypeWrapper.hasDecorationChanged w current = false) as ->.
  { unfold DecorationTypeWrapper.hasDecorationChanged.
    rewrite !orb_false_iff, !negb_false_iff, !String.eqb_eq,
      Bool.eqb_true_iff, Z.eqb_eq, bool_decide_eq_true.
    repeat split; congruence. }
  split; [done|]. cbn. rewrite andb_true_r.
  rewrite !orb_false_iff, !negb_false_iff, !String.eqb_eq.
  repeat split; congruence.
Qed.

End UpdateExtras.

(** ** The further properties at concrete inputs *)

Module ExtraChecks.

Import DecorationTypeWrapper DecorationTypeManager Sample.


(** X4 at the store of two ranges. *)
Lemma removeIntersectingOccurrences_witness :
  ∃ ird w',
    removeIntersectingOccurrences 3 (span 0 4 0 7) fooStore = Ret (ird, w')
    ∧ DecorationTypeWrapper.rule w' = DecorationTypeWrapper.rule fooStore
    ∧ document w' = document fooStore
    ∧ 0 ≤ IntersectingRangeData.removed ird
    ∧ Z.of_nat (length (activeOccurrences w'))
      = Z.of_nat (length (activeOccurrences fooStore))
        - IntersectingRangeData.removed ird.
Proof.
  apply (SearchExtras.removeIntersectingOccurrences_returns 3 (span 0 4 0 7)
           fooStore).
  cbn. lia.
Defined.

(** X5 at an edit of the first line, two lines above the only stored
    range. *)
Lemma no_intersection_witness :
  ∃ index,
    removeIntersectingOccurrences 2 (span 0 0 1 0) fooBelowStore
    = Ret (IntersectingRangeData.mk 0 None index, fooBelowStore)
    ∧ 1 ≤ index ≤ Z.of_nat (length (activeOccurrences fooBelowStore)) + 1.
Proof.
  apply (SearchExtras.no_intersection_removes_nothing 2 (span 0 0 1 0)
           fooBelowStore).
  - cbn. lia.
  - intros o Ho. cbn in Ho. apply list_elem_of_singleton in Ho as ->.
    vm_compute. reflexivity.
Defined.

(** X6 at an edit of the line that holds both stored ranges. *)
Lemma removal_witness :
  ∃ lo hi : nat,
    IntersectingRangeData.insertIndex
      (IntersectingRangeData.mk 2 (Some (span 0 0 1 1)) 0) = Z.of_nat lo
    ∧ IntersectingRangeData.removed
        (IntersectingRangeData.mk 2 (Some (span 0 0 1 1)) 0)
      = Z.of_nat (hi - lo)
    ∧ (lo < hi ≤ length (activeOccurrences fooStore))%nat
    ∧ activeOccurrences (DecorationTypeWrapper.mk fooBarFoo fooRule [] [])
      = take lo (activeOccurrences fooStore)
        ++ drop hi (activeOccurrences fooStore)
    ∧ decorationOptions (DecorationTypeWrapper.mk fooBarFoo fooRule [] [])
      = splice lo (hi - lo) [] (decorationOptions fooStore)
    ∧ (∀ j o, (lo ≤ j < hi)%nat → activeOccurrences fooStore !! j = Some o →
              is_Some (Range.intersection (paddedRange (span 0 0 1 0)) o))
    ∧ (∀ o, activeOccurrences fooStore !! hi = Some o →
            Range.intersection (paddedRange (span 0 0 1 0)) o = None)
    ∧ (∀ j o, S j = lo → activeOccurrences fooStore !! j = Some o →
              Range.intersection (paddedRange (span 0 0 1 0)) o = None).
Proof.
  apply (SearchExtras.removal_cuts_the_maximal_run 3 (span 0 0 1 0) fooStore
           (DecorationTypeWrapper.mk fooBarFoo fooRule [] [])
           (IntersectingRangeData.mk 2 (Some (span 0 0 1 1)) 0)
           (span 0 0 1 1)).
  - vm_compute. reflexivity.
  - reflexivity.
Defined.

(** X7 at the scenario of the specification. *)
Lemma arrays_in_step_witness :
  match generateOccurrencesOnChange 10 barToBarbaz
          (withDocument fooStore (applyChange fooBarFoo barToBarbaz)) with
  | Ret w' =>
      map range (decorationOptions w') = activeOccurrences w'
      ∧ DecorationTypeWrapper.rule w' = fooRule
      ∧ document w' = applyChange fooBarFoo barToBarbaz
  | _ => False
  end.
Proof.
  destruct (generateOccurrencesOnChange 10 barToBarbaz
              (withDocument fooStore (applyChange fooBarFoo barToBarbaz)))
    as [w'| |] eqn:Hgen.
  - apply (StepExtras.incremental_update_keeps_arrays_in_step 10 barToBarbaz
             (withDocument fooStore (applyChange fooBarFoo barToBarbaz)) w'
             Hgen).
    reflexivity.
  - vm_compute in Hgen. discriminate.
  - vm_compute in Hgen. discriminate.
Defined.

(** X8 at the scenario of the specification. *)
Lemma incremental_update_returns_witness :
  ∃ w',
    generateOccurrencesOnChange 20 barToBarbaz
      (withDocument fooStore (applyChange fooBarFoo barToBarbaz)) = Ret w'.
Proof.
  apply (ScanExtras.incremental_update_returns_when_matches_advance 20
           barToBarbaz
           (withDocument fooStore (applyChange fooBarFoo barToBarbaz))
           fooRegExp).
  - reflexivity.
  - reflexivity.
  - intros s i len. unfold fooRegExp, Literal.matchAt. cbn [RegExp.matcher].
    destruct (Literal.isPrefix _ _ _); [|discriminate].
    intros [= <-]. cbn. lia.
  - cbn. lia.
  - vm_compute. lia.
Defined.

(** X9 at the empty factory. *)
Lemma addRule_witness :
  ∃ f',
    RuleFactory.addRule fooRule factory = Ret f'
    ∧ RuleFactory.getRule f' (id fooRule) = Some fooRule
    ∧ (∀ i, i ≠ id fooRule →
         RuleFactory.getRule f' i = RuleFactory.getRule factory i)
    ∧ RuleFactory.getRulesArray f'
      = RuleFactory.getRulesArray factory ++ [fooRule]
    ∧ RuleFactory.enabledRulesCast f'
      = RuleFactory.enabledRulesCast factory
        ++ [filter (fun r => enabled r = true)
              (RuleFactory.getRulesArray factory ++ [fooRule])]
    ∧ (size (RuleFactory.rulesMap factory)
       = length (RuleFactory.rulesArray factory) →
       size (RuleFactory.rulesMap f') = length (RuleFactory.rulesArray f')
       ∧ RuleFactory.errors f' = RuleFactory.errors factory).
Proof.
  apply (FactoryExtras.addRule_fresh_id fooRule factory). reflexivity.
Defined.

(** X11 at the empty factory. *)
Lemma addRule_then_removeRule_witness :
  ∃ f'',
    (f' ← RuleFactory.addRule fooRule factory;
     RuleFactory.removeRule (id fooRule) f') = Ret f''
    ∧ RuleFactory.rulesMap f'' = RuleFactory.rulesMap factory
    ∧ RuleFactory.rulesArray f'' = RuleFactory.rulesArray factory.
Proof.
  apply (FactoryExtras.addRule_then_removeRule fooRule factory).
  - reflexivity.
  - constructor.
Defined.

(** X19 at two rules, one of them with a filter that does not compile. *)
Lemma update_without_editor_witness :
  ∃ m' f',
    updateDecorations 0 [badFilterRule; fooRule] (idleManager, factory)
    = Ret (m', f')
    ∧ (∀ r, r ∈ [badFilterRule; fooRule] →
         RuleFactory.getRule f' (id r) = Some (withReport r [] 0))
    ∧ (∀ i, i ∉ map id [badFilterRule; fooRule] →
         RuleFactory.getRule f' i = RuleFactory.getRule factory i)
    ∧ RuleFactory.enabledRulesCast f' = RuleFactory.enabledRulesCast factory
    ∧ editorCalls m' = editorCalls idleManager
    ∧ _ruleToActiveOccurrences m' = _ruleToActiveOccurrences idleManager.
Proof.
  apply (ReportExtras.update_without_editor_reports_empty 0
           [badFilterRule; fooRule] idleManager factory).
  - reflexivity.
  - reflexivity.
  - apply (bool_decide_unpack _). vm_compute. reflexivity.
Defined.

(** X20 at the rule for [foo] over [foo bar foo]. *)
Lemma manager_scan_witness :
  ∃ m' w' lineRanges,
    updateOccurrences 1001 fooBarFoo (Some fooRule) (DecorationTypeWrapper.new fooBarFoo fooRule)
    = Ret w'
    ∧ decorateRule 1001 (editor fooBarFoo) fooRule
        (manager fooBarFoo, factory)
      = Ret (m',
             RuleFactory.pushOccurrences fooRule lineRanges
               (Z.of_nat (length (activeOccurrences w'))) factory)
    ∧ length lineRanges = length (activeOccurrences w')
    ∧ _ruleToActiveOccurrences m' !! id fooRule = Some (activeOccurrences w')
    ∧ (∀ i, i ≠ id fooRule →
         _ruleToActiveOccurrences m' !! i
         = _ruleToActiveOccurrences (manager fooBarFoo) !! i).
Proof.
  apply (ReportExtras.manager_scan_agrees_with_wrapper_rebuild 1001
           (editor fooBarFoo) fooRule fooRegExp (manager fooBarFoo) factory
           (DecorationTypeWrapper.new fooBarFoo fooRule)).
  - reflexivity.
  - reflexivity.
  - reflexivity.
  - discriminate.
  - reflexivity.
  - vm_compute. reflexivity.
Defined.

(** X21 at an update for the rule for [foo]. *)
Lemma never_broadcasts_witness :
  match updateDecorations 10 [fooRule] (manager fooBarFoo, factory) with
  | Ret (m', f') =>
      RuleFactory.enabledRulesCast f' = RuleFactory.enabledRulesCast factory
      ∧ RuleFactory.pushedRules f' = RuleFactory.pushedRules factory
      ∧ RuleFactory.locked f' = RuleFactory.locked factory
      ∧ RuleFactory.location f' = RuleFactory.location factory
      ∧ RuleFactory.errors f' = RuleFactory.errors factory
      ∧ length (RuleFactory.rulesArray f')
        = length (RuleFactory.rulesArray factory)
  | _ => False
  end.
Proof.
  destruct (updateDecorations 10 [fooRule] (manager fooBarFoo, factory))
    as [[m' f']| |] eqn:Hupdate.
  - apply (UpdateExtras.updateDecorations_never_broadcasts 10 [fooRule]
             (manager fooBarFoo) factory m' f' Hupdate).
  - vm_compute in Hupdate. discriminate.
  - vm_compute in Hupdate. discriminate.
Defined.

(** X22 at the rule for [foo] with a report written into it. *)
Lemma unchanged_rule_witness :
  hasDecorationChanged fooStore (withReport fooRule [] 5) = false
  ∧ needsOnlyOccurrenceUpdate fooStore (withReport fooRule [] 5) = false.
Proof.
  apply (UpdateExtras.unchanged_for_manager_is_unchanged_for_wrapper fooStore
           (withReport fooRule [] 5)).
  repeat split.
Defined.

End ExtraChecks.

(** ** Exceptions that leave the update *)

Module ExceptionFacts.

Import DecorationTypeManager.

Section WithLocation.

Context {LocationState : Type} `{Countable LocationState} `{Engine}.

Implicit Types (m : DecorationTypeManager.t LocationState)
  (f : RuleFactory.t LocationState)
  (st : DecorationTypeManager.t LocationState * RuleFactory.t LocationState).

(** The loop body lets out no exception but that of a filter that does not
    compile: whatever is thrown once the pattern is reached is caught. *)
Lemma decorateRule_throws fuel activeEditor rule m f exn :
  decorateRule fuel activeEditor rule (m, f) = Throw exn →
  (excludedFiles rule ≠ "" ∧ compile (excludedFiles rule) "" = None
   ∧ exn = SyntaxError (excludedFiles rule))
  ∨ (includedFiles rule ≠ "" ∧ compile (includedFiles rule) "" = None
     ∧ exn = SyntaxError (includedFiles rule)).
Proof.
  unfold decorateRule, new_RegExp.
  destruct (String.eqb_spec (excludedFiles rule) "") as [|Hexcl]; cbn.
  2: { destruct (compile (excludedFiles rule) "") as [exclude|] eqn:Hc; cbn;
         [|intros [= <-]; by left].
       destruct (RegExp.test exclude _); [done|].
       destruct (String.eqb_spec (includedFiles rule) "") as [|Hincl]; cbn.
       2: { destruct (compile (includedFiles rule) "") as [include|] eqn:Hi;
              cbn; [|intros [= <-]; by right].
            destruct (RegExp.test include _); cbn; [|done].
            destruct (String.eqb (regularExpression rule) ""); [done|].
            destruct (scanRule _ _ _ _ _); done. }
       destruct (String.eqb (regularExpression rule) ""); [done|].
       destruct (scanRule _ _ _ _ _); done. }
  destruct (String.eqb_spec (includedFiles rule) "") as [|Hincl]; cbn.
  2: { destruct (compile (includedFiles rule) "") as [include|] eqn:Hi;
         cbn; [|intros [= <-]; by right].
       destruct (RegExp.test include _); cbn; [|done].
       destruct (String.eqb (regularExpression rule) ""); [done|].
       destruct (scanRule _ _ _ _ _); done. }
  destruct (String.eqb (regularExpression rule) ""); [done|].
  destruct (scanRule _ _ _ _ _); done.
Qed.

(** Where the loop, the update and the subscriber return, what they leave
    behind is what they return. *)
Lemma forEachRule_leaves fuel activeEditor (rules : list Rule) st st1 :
  forEachRule fuel activeEditor rules st = Ret st1 →
  forEachRuleLeaves fuel activeEditor rules st = st1.
Proof.
  revert st. induction rules as [|rule rules IH]; intros st;
    cbn [forEachRule forEachRuleLeaves]; [by intros [= <-]|].
  destruct (decorateRule fuel activeEditor rule st) as [st2| |]; cbn;
    try done.
  apply IH.
Qed.

Lemma updateDecorations_leaves fuel (rules : list Rule) st st1 :
  updateDecorations fuel rules st = Ret st1 →
  updateDecorationsLeaves fuel rules st = st1.
Proof.
  destruct st as [m f]. unfold updateDecorations, updateDecorationsLeaves.
  destruct (RuleFactory.locked f); [by intros [= <-]|].
  destruct (_activeEditor m) as [activeEditor|]; [|by intros [= <-]].
  apply forEachRule_leaves.
Qed.

Lemma onEnabledRules_leaves fuel (rules : list Rule) st st1 :
  onEnabledRules fuel rules st = Ret st1 →
  onEnabledRulesLeaves fuel rules st = st1.
Proof.
  destruct st as [m f]. unfold onEnabledRules, onEnabledRulesLeaves.
  destruct (isDecorationChangeInArray rules (RuleFactory.location f) m);
    [|by intros [= <-]].
  destruct (updateDecorations fuel rules (clearDecorationsByFactory f m, f))
    as [[m' f']| |] eqn:Hupdate; [|by cbn..].
  rewrite (updateDecorations_leaves _ _ _ _ Hupdate). cbn. by intros [= <-].
Qed.

(** The remembered lists are written by the subscriber alone: neither a call
    on the editor nor an iteration of the loop touches them, and no report
    moves the factory to another location. *)
Lemma call_remembered c m :
  _factoryToOldEnabledRules (call c m) = _factoryToOldEnabledRules m.
Proof. unfold call. by destruct (_activeEditor m). Qed.

Lemma clearDecorationsByFactory_remembered f m :
  _factoryToOldEnabledRules (clearDecorationsByFactory f m)
  = _factoryToOldEnabledRules m.
Proof.
  unfold clearDecorationsByFactory.
  generalize (default [] (_factoryToDecorations m !! RuleFactory.location f)).
  intros types. revert m.
  induction types as [|decorationType types IH]; intros m; cbn [foldl];
    [done|].
  by rewrite IH, call_remembered.
Qed.

Lemma pushOccurrences_location rule ranges count f :
  RuleFactory.location (RuleFactory.pushOccurrences rule ranges count f)
  = RuleFactory.location f.
Proof.
  unfold RuleFactory.pushOccurrences, RuleFactory.postMessage. cbn.
  by destruct (RuleFactory.grepcProvider f) as [[|]|].
Qed.

Lemma decorateRule_remembered fuel activeEditor rule m f m' f' :
  decorateRule fuel activeEditor rule (m, f) = Ret (m', f') →
  _factoryToOldEnabledRules m' = _factoryToOldEnabledRules m
  ∧ RuleFactory.location f' = RuleFactory.location f.
Proof.
  unfold decorateRule.
  destruct (if String.eqb (excludedFiles rule) "" then Ret false else _)
    as [[|]| |]; cbn; try done;
    [intros [= <- <-]; by rewrite pushOccurrences_location|].
  destruct (if String.eqb (includedFiles rule) "" then Ret false else _)
    as [[|]| |]; cbn; try done;
    [intros [= <- <-]; by rewrite pushOccurrences_location|].
  destruct (String.eqb (regularExpression rule) "");
    [intros [= <- <-]; by rewrite pushOccurrences_location|].
  unfold scanRule.
  destruct (new_RegExp _ _) as [regEx| |]; cbn; try done;
    [|intros [= <- <-]; by rewrite pushOccurrences_location].
  destruct (execLoop _ _ _ _ _ _) as [found| |]; cbn; try done;
    [|intros [= <- <-]; by rewrite pushOccurrences_location].
  destruct (toLineRanges _ _ _) as [lineRanges| |]; cbn; try done.
  - unfold getTextEditorDecorationType, clearDecorations. cbn.
    intros [= <- <-]. rewrite pushOccurrences_location, call_remembered. cbn.
    split; [|done].
    destruct (_ruleToDecorationType m !! id rule); cbn; [|done].
    by rewrite call_remembered.
  - intros [= <- <-]. by rewrite pushOccurrences_location.
Qed.

Lemma forEachRuleLeaves_remembered fuel activeEditor (rules : list Rule) m f :
  _factoryToOldEnabledRules (forEachRuleLeaves fuel activeEditor rules (m, f)).1
  = _factoryToOldEnabledRules m
  ∧ RuleFactory.location (forEachRuleLeaves fuel activeEditor rules (m, f)).2
    = RuleFactory.location f.
Proof.
  revert m f. induction rules as [|rule rules IH]; intros m f;
    cbn [forEachRuleLeaves]; [done|].
  destruct (decorateRule fuel activeEditor rule (m, f)) as [[m1 f1]| |]
    eqn:Hd; [|done..].
  apply decorateRule_remembered in Hd as [<- <-]. apply IH.
Qed.

Lemma updateDecorationsLeaves_remembered fuel (rules : list Rule) m f :
  _factoryToOldEnabledRules (updateDecorationsLeaves fuel rules (m, f)).1
  = _factoryToOldEnabledRules m
  ∧ RuleFactory.location (updateDecorationsLeaves fuel rules (m, f)).2
    = RuleFactory.location f.
Proof.
  unfold updateDecorationsLeaves.
  destruct (RuleFactory.locked f); [done|].
  destruct (_activeEditor m) as [activeEditor|] eqn:Heditor.
  - match goal with
    | |- context [forEachRuleLeaves _ _ _ (?m0, _)] =>
        destruct (forEachRuleLeaves_remembered fuel activeEditor rules m0 f)
          as [-> ->]
    end.
    rewrite clearDecorationsByFactory_remembered.
    by destruct (negb _).
  - cbn. split; [done|].
    clear. revert f. induction rules as [|rule rules IH]; intros f;
      cbn [foldl]; [done|].
    by rewrite IH, pushOccurrences_location.
Qed.

(** A delivery that ends in an exception is not remembered: the same list
    delivered next is taken for a change again. *)
Lemma throwing_delivery_not_remembered fuel (rules : list Rule) m f exn :
  onEnabledRules fuel rules (m, f) = Throw exn →
  isDecorationChangeInArray rules
    (RuleFactory.location (onEnabledRulesLeaves fuel rules (m, f)).2)
    (onEnabledRulesLeaves fuel rules (m, f)).1 = true.
Proof.
  unfold onEnabledRules, onEnabledRulesLeaves.
  destruct (isDecorationChangeInArray rules (RuleFactory.location f) m)
    eqn:Hchange; [|done].
  destruct (updateDecorationsLeaves_remembered fuel rules
              (clearDecorationsByFactory f m) f) as [Hold Hloc].
  destruct (updateDecorationsLeaves fuel rules
              (clearDecorationsByFactory f m, f)) as [m1 f1].
  destruct (updateDecorations fuel rules (clearDecorationsByFactory f m, f))
    as [[m' f']| |]; [by cbn| |by cbn].
  intros _. cbn [returns fst snd] in *.
  unfold isDecorationChangeInArray in *.
  rewrite Hold, Hloc, clearDecorationsByFactory_remembered. exact Hchange.
Qed.

End WithLocation.

End ExceptionFacts.

(** ** Exceptions at concrete inputs *)

Module ExceptionChecks.

Import DecorationTypeManager Sample.

(** C4, at the failing inputs.  Beside the rule whose pattern is ["("] the
    list holds a rule whose exclusion filter is ["("]: whatever the fuel, the
    update ends in the compiler's exception, with one report made, that for
    the rule with the bad pattern; the rule for [foo] behind them is never
    reached.  When the rule with the bad pattern is itself the one with the
    bad filter, nothing at all is reported, not even for this rule.  Without
    the bad filter the update returns with both rules reported. *)
Theorem invalid_pattern_beside_malformed_filter (fuel : nat) :
  patternInvalid badRule
  ∧ updateDecorations fuel [badRule; badFilterRule; fooRule]
      (manager fooBarFoo, factory) = Throw (SyntaxError "(")
  ∧ postedCounts
      (updateDecorationsLeaves fuel [badRule; badFilterRule; fooRule]
         (manager fooBarFoo, factory)) = [("r-bad", 0)]
  ∧ patternInvalid badBoth
  ∧ updateDecorations fuel [badBoth; fooRule] (manager fooBarFoo, factory)
    = Throw (SyntaxError "(")
  ∧ postedCounts
      (updateDecorationsLeaves fuel [badBoth; fooRule]
         (manager fooBarFoo, factory)) = []
  ∧ postedCounts
      (updateDecorationsLeaves 10 [badRule; fooRule]
         (manager fooBarFoo, factory)) = [("r-bad", 0); ("r-foo", 2)]
  ∧ returns (updateDecorations 10 [badRule; fooRule]
               (manager fooBarFoo, factory)) = true.
Proof. repeat split; vm_compute; reflexivity. Qed.

(** C8, at the failing input.  The list holds the rule for [foo] and, behind
    it, a rule whose exclusion filter is ["("].  The first delivery scans and
    reports the first rule and then ends in the compiler's exception, so the
    list is not remembered.  The same list delivered again is taken for a
    change: the decoration type of the first round is emptied three times, the
    text is scanned again into a second decoration type, and the two
    occurrences are reported a second time; this delivery ends in the
    exception as well. *)
Theorem same_rules_twice_after_malformed_filter :
  onEnabledRules 10 fooThenBadFilter (manager fooBarFoo, factory)
  = Throw (SyntaxError "(")
  ∧ _factoryToOldEnabledRules deliveredOnce.1 !! 0%nat = None
  ∧ postedCounts deliveredOnce = [("r-foo", 2)]
  ∧ isDecorationChangeInArray fooThenBadFilter 0%nat deliveredOnce.1 = true
  ∧ onEnabledRules 10 fooThenBadFilter deliveredOnce
    = Throw (SyntaxError "(")
  ∧ editorCalls deliveredTwice.1
    = editorCalls deliveredOnce.1
      ++ [SetDecorations 0 []; SetDecorations 0 []; SetDecorations 0 [];
          SetDecorations 1
            [mkDecoration (span 0 0 0 3) "r-foo" 1;
             mkDecoration (span 0 8 0 11) "r-foo" 2]]
  ∧ postedCounts deliveredTwice = [("r-foo", 2); ("r-foo", 2)]
  ∧ nextDecorationType deliveredTwice.1
    = S (nextDecorationType deliveredOnce.1).
Proof. repeat split; vm_compute; reflexivity. Qed.

End ExceptionChecks.
